(** * photomosaic.py: a shallow embedding and its checked properties

    The program builds a photomosaic: a pool of candidate images is indexed
    in a SQLite database by salient colours ([create_image_pool], [insert]),
    a target image is cut into tiles ([partition_target]), each tile is
    matched against the pool under a usage cap ([find_match]), the matched
    file is cropped and resized ([crop_to_fit]) and the tiles are pasted
    into the final canvas ([assemble_mosaic]).  As the module stands,
    [find_match] reads a global name that is bound nowhere and ends in
    NameError before it reaches its query.

    Conventions of the embedding.
    - Python integers are [Z]; [//] is floor division and raises
      [ZeroDivisionError] on a zero divisor.
    - The REAL columns L, a, b hold rationals ([Q], which every finite
      binary64 value is); the arithmetic of the SQL query rounds each
      result to binary64, through the rounding [fl] the embedding takes
      from SQLite (overflow to infinity is outside the model).
    - A PIL image is a record of mode, size and pixel function.  Image
      objects that the code mutates in place live in a store ([heap]) and
      are passed by reference ([loc]).
    - The two tables are lists of rows in rowid order.  The state holds
      the pool as the open connection sees it; closing a connection
      without a commit leaves the pool as last committed.
    - Exceptions are values of [exn]; a computation that raises keeps the
      state it had reached. *)

From Stdlib Require Import ZArith QArith Lia List Permutation Sorted.
From stdpp Require Import base gmap list strings sorting.

Local Open Scope Z_scope.

(** ** Exceptions and the error monad of the pure functions *)

Inductive exn : Type :=
| AssertionError
| IndexError
| TypeError            (* subscripting None *)
| NameError (name : string)
| ZeroDivisionError
| IOError
| IntegrityError.      (* sqlite3.IntegrityError *)

Definition Res (A : Type) : Type := (exn + A)%type.

Definition rbind {A B : Type} (m : Res A) (k : A → Res B) : Res B :=
  match m with
  | inl e => inl e
  | inr x => k x
  end.

Declare Scope res_scope.
Delimit Scope res_scope with res.
Notation "'let?' x ':=' m 'in' k" := (rbind m (fun x => k))
  (at level 10, x name, m at level 100, k at level 200) : res_scope.
Local Open Scope res_scope.

(** [a // b] of Python on integers. *)
Definition floordiv (a b : Z) : Res Z :=
  if decide (b = 0) then inl ZeroDivisionError else inr (a `div` b).

(** ** Images (the part of PIL the program uses) *)

Definition pixel : Type := (Z * Z * Z)%type.
Definition box : Type := (Z * Z * Z * Z)%type.

Record Image : Type := mkImage {
  mode : string;
  size : Z * Z;
  pix : Z → Z → pixel
}.

Definition black : pixel := (0, 0, 0).

Definition inside (sz : Z * Z) (x y : Z) : bool :=
  bool_decide (0 ≤ x < sz.1 ∧ 0 ≤ y < sz.2).

(** [Image.new(mode, size)]: a black canvas. *)
Definition Image_new (m : string) (sz : Z * Z) : Image :=
  mkImage m sz (fun _ _ => black).

(** [img.crop((x0, y0, x1, y1))]: a new image of size (x1-x0, y1-y0); what
    lies outside the source is black. *)
Definition crop (img : Image) (bx : box) : Image :=
  let '(x0, y0, x1, y1) := bx in
  mkImage (mode img) (x1 - x0, y1 - y0)
    (fun x y => if inside (size img) (x0 + x) (y0 + y)
                then pix img (x0 + x) (y0 + y) else black).

(** [canvas.paste(tile, (px, py))] without a mask: the pixels of the tile
    replace those of the canvas over the footprint of the tile. *)
Definition covers (tile : Image) (pos : Z * Z) (u v : Z) : bool :=
  inside (size tile) (u - pos.1) (v - pos.2).

Definition paste (canvas tile : Image) (pos : Z * Z) : Image :=
  mkImage (mode canvas) (size canvas)
    (fun u v => if covers tile pos u v
                then pix tile (u - pos.1) (v - pos.2)
                else pix canvas u v).

Inductive resample_filter : Type := NEAREST | ANTIALIAS.

(** The size [img.thumbnail(size)] gives the image (PIL keeps the aspect
    ratio, with integer division, and never goes below one pixel). *)
Definition thumbnail_size (sz bound : Z * Z) : Z * Z :=
  let '(x, y) := sz in
  let '(x, y) := if decide (x > bound.1)
                 then (bound.1, Z.max ((y * bound.1) `div` x) 1) else (x, y) in
  let '(x, y) := if decide (y > bound.2)
                 then (Z.max ((x * bound.2) `div` y) 1, bound.2) else (x, y) in
  (x, y).

(** ** The pool store *)

Module Images.
Record row : Type := mk {
    image_id : Z;          (* INTEGER PRIMARY KEY *)
    usages : Z;
    w : Z;
    h : Z;
    filename : string      (* TEXT UNIQUE *)
  }.
End Images.

Module Colors.
Record row : Type := mk {
    color_id : Z;          (* INTEGER PRIMARY KEY *)
    image_id : Z;
    rank : Z;
    L : Q;
    a : Q;
    b : Q;
    red : Z;
    green : Z;
    blue : Z
  }.
End Colors.

(** A row of the SELECT of [find_match] (a sqlite3.Row). *)
Module Match.
Record row : Type := mk {
    image_id : Z;
    L : Q;
    a : Q;
    b : Q;
    ab_distance : Q;
    rank : Z;
    usages : Z;
    filename : string
  }.
End Match.

Record DB : Type := mkDB {
  images : list Images.row;
  colors : list Colors.row
}.

(** ** The state of a run and the monad of the stateful functions *)

Definition loc : Type := nat.

Record World : Type := mkWorld {
  heap : gmap loc Image;     (* image objects *)
  db : DB;                   (* the connection to the pool store *)
  stdout : list string       (* what print has written *)
}.

Definition M (A : Type) : Type := World → Res A * World.

Definition ret {A : Type} (x : A) : M A := fun σ => (inr x, σ).

Definition raise {A : Type} (e : exn) : M A := fun σ => (inl e, σ).

Definition bind {A B : Type} (m : M A) (k : A → M B) : M B :=
  fun σ => match m σ with
           | (inl e, σ') => (inl e, σ')
           | (inr x, σ') => k x σ'
           end.

Definition lift {A : Type} (r : Res A) : M A := fun σ => (r, σ).

(** [try: m except e: handler]. *)
Definition try_except {A : Type} (m : M A) (catches : exn → bool)
    (handler : M A) : M A :=
  fun σ => match m σ with
           | (inl e, σ') => if catches e then handler σ' else (inl e, σ')
           | r => r
           end.

(** [try: m finally: close]: [close] runs however [m] ends, and the
    exception of [m], if any, goes on after it. *)
Definition try_finally {A : Type} (m : M A) (close : M unit) : M A :=
  fun σ => match m σ with
           | (r, σ') => match close σ' with
                        | (inl e, σ'') => (inl e, σ'')
                        | (inr _, σ'') => (r, σ'')
                        end
           end.

(** Reading a global name that the module does not bind. *)
Definition unbound {A : Type} (name : string) : M A := raise (NameError name).

Declare Scope m_scope.
Delimit Scope m_scope with M.
Notation "'do' x '<-' m ';' k" := (bind m (fun x => k))
  (at level 10, x name, m at level 100, k at level 200) : m_scope.
Notation "'do_' m ';' k" := (bind m (fun _ => k))
  (at level 10, m at level 100, k at level 200) : m_scope.
Local Open Scope m_scope.

Definition print (s : string) : M unit :=
  fun σ => (inr (), mkWorld (heap σ) (db σ) (stdout σ ++ [s])).

Definition get_db : M DB := fun σ => (inr (db σ), σ).

Definition put_db (d : DB) : M unit :=
  fun σ => (inr (), mkWorld (heap σ) d (stdout σ)).

(** Reading and writing through a reference to an image object (in Python
    a reference always has its object; the other case only makes [deref]
    total). *)
Definition deref (l : loc) : M Image :=
  fun σ => match heap σ !! l with
           | Some im => (inr im, σ)
           | None => (inl (NameError "dangling reference"), σ)
           end.

Definition assign (l : loc) (im : Image) : M unit :=
  fun σ => (inr (), mkWorld (<[l := im]> (heap σ)) (db σ) (stdout σ)).

Definition alloc (im : Image) : M loc :=
  fun σ => let l := fresh (dom (heap σ)) in
           (inr l, mkWorld (<[l := im]> (heap σ)) (db σ) (stdout σ)).

Fixpoint mapM {A B : Type} (f : A → M B) (l : list A) : M (list B) :=
  match l with
  | [] => ret []
  | x :: l' => do y <- f x; do ys <- mapM f l'; ret (y :: ys)
  end.

#[global] Instance exn_eq_dec : EqDecision exn.
Proof. solve_decision. Defined.

(** ** Sorting (ORDER BY, argsort) *)

(** Insertion before the first element that is not smaller: elements with
    equal keys keep the order they came in. *)
Fixpoint insert_sorted {A : Type} (le : A → A → bool) (x : A) (l : list A)
  : list A :=
  match l with
  | [] => [x]
  | y :: l' => if le x y then x :: l else y :: insert_sorted le x l'
  end.

Definition sort_by {A : Type} (le : A → A → bool) (l : list A) : list A :=
  foldr (insert_sorted le) [] l.

(** Comparison of rows by a rational key, and lists in ascending order of
    the key. *)
Definition key_le {A : Type} (key : A → Q) (x y : A) : bool :=
  Qle_bool (key x) (key y).

Definition ascending {A : Type} (key : A → Q) : list A → Prop :=
  StronglySorted (fun x y => Qle (key x) (key y)).

Definition range (n : Z) : list Z := Z.of_nat <$> seq 0 (Z.to_nat n).

(** ** The numpy calls of [salient_colors] *)

(** [scipy.misc.fromimage(img)] reshaped to one row per pixel: the pixels
    line by line. *)
Definition fromimage (img : Image) : list pixel :=
  range (size img).2 ≫= (fun y => (fun x => pix img x y) <$> range (size img).1).

(** The bin of [numpy.histogram(vecs, n)] an integer falls in: [n] bins of
    equal width over [min, max] of the data, the last one closed on the
    right; over [min - 1/2, max + 1/2] when the data has one value. *)
Definition bin_of (mn mx : Z) (n : nat) (v : Z) : Z :=
  if decide (mn = mx) then Z.of_nat n `div` 2
  else if decide (v = mx) then Z.of_nat n - 1
  else ((v - mn) * Z.of_nat n) `div` (mx - mn).

Definition histogram (vecs : list Z) (n : nat) : list Z :=
  match vecs with
  | [] => replicate n 0
  | v0 :: vs =>
      let mn := foldr Z.min v0 vs in
      let mx := foldr Z.max v0 vs in
      (fun i => Z.of_nat (length (filter (fun v => bin_of mn mx n v = i) vecs)))
        <$> range (Z.of_nat n)
  end.

(** [keys.argsort()]: the indices in ascending order of their keys (numpy
    leaves the order of equal keys to the sorting kind; here they stay in
    index order). *)
Definition argsort (keys : list Z) : list nat :=
  snd <$> sort_by (fun p q => bool_decide (p.1 ≤ q.1))
                  (zip keys (seq 0 (length keys))).

(** [colors[perm]]. *)
Definition take_rows {A : Type} (colors : list A) (perm : list nat) : list A :=
  omap (fun i => colors !! i) perm.

(** ** Concrete collaborators and inputs, for runs of the model *)

Definition toy_resample : resample_filter → Image → Z * Z → Z → Z → pixel :=
  fun _ img _ x y => pix img x y.
Definition toy_kmeans : list pixel → nat → list pixel :=
  fun obs k => take k obs.
Definition toy_vq : list pixel → list pixel → list Z :=
  fun obs _ => (fun _ => 0) <$> obs.
Definition toy_rgb2lab : pixel → Q * Q * Q :=
  fun '(r, g, b) => (inject_Z r, inject_Z g, inject_Z b).

(** The sums, products and differences of the small integers the concrete
    pools hold are binary64 values, so rounding leaves them as they are. *)
Definition toy_fl : Q → Q := fun q => q.

Definition plain (m : string) (sz : Z * Z) (p : pixel) : Image :=
  mkImage m sz (fun _ _ => p).

(** [scipy.cluster.vq.vq] on integer data: for each observation the index
    of the nearest centroid, the first one among equally near ones. *)
Definition distance2 (p q : pixel) : Z :=
  let '(r1, g1, b1) := p in
  let '(r2, g2, b2) := q in
  (r1 - r2) * (r1 - r2) + (g1 - g2) * (g1 - g2) + (b1 - b2) * (b1 - b2).

Definition nearest_vq (obs colors : list pixel) : list Z :=
  (fun p => Z.of_nat (default 0%nat (head (argsort (distance2 p <$> colors)))))
    <$> obs.

(** An image of four pixels and a codebook of two centroids, the means of
    the first and last pixel and of the two pixels between, each channel
    cut to an integer: every pixel is nearest to the first centroid (two
    of them as near to the second). *)
Definition four_pixels : Image :=
  mkImage "RGB" (4, 1)
    (fun x _ => if decide (x = 0) then (1, 2, 3)
                else if decide (x = 1) then (0, 1, 3)
                else if decide (x = 2) then (1, 2, 2) else (0, 3, 3)).

Definition two_means : list pixel := [(0, 2, 3); (0, 1, 2)].

Definition two_means_kmeans : list pixel → nat → list pixel :=
  fun _ _ => two_means.

Section Photomosaic.

(** What the program takes from its libraries and collaborators: the
    resampling kernel of PIL, k-means and vector quantisation of
    scipy.cluster.vq (one outcome of the randomised k-means per input), the
    RGB to Lab conversion [cs.rgb2lab] of module color_spaces, the image
    files on disk, and the rounding to the nearest binary64 value that
    SQLite applies to the result of each operation on REAL values. *)
Variable resample : resample_filter → Image → Z * Z → Z → Z → pixel.
Variable kmeans : list pixel → nat → list pixel.
Variable vq : list pixel → list pixel → list Z.
Variable rgb2lab : pixel → Q * Q * Q.
Variable disk : string → option Image.
Variable fl : Q → Q.

(** [img.resize(size, filter)]: a new image of exactly [size]. *)
Definition resize (img : Image) (sz : Z * Z) (f : resample_filter) : Image :=
  mkImage (mode img) sz (resample f img sz).

(** [img.thumbnail(size)] as a function on the value of the object; the
    object is left alone when the size does not change. *)
Definition thumbnail (img : Image) (bound : Z * Z) : Image :=
  let sz := thumbnail_size (size img) bound in
  if decide (sz = size img) then img else resize img sz NEAREST.

(** ** partition_target *)

Definition partition_target (img : Image) (tile_size : Z * Z)
  : Res (list (list Image)) :=
  let? width := floordiv (size img).1 tile_size.1 in
  let? height := floordiv (size img).2 tile_size.2 in
  inr ((fun y =>
          (fun x => crop img (x * tile_size.1, y * tile_size.2,
                              (x + 1) * tile_size.1, (y + 1) * tile_size.2))
          <$> range width)
       <$> range height).

(** ** assemble_mosaic *)

(** The paste calls of the two nested [enumerate] loops, in order. *)
Definition paste_calls (tiles : list (list Image)) (tile_size : Z * Z)
  : list (Image * (Z * Z)) :=
  mjoin (imap (fun y row =>
            imap (fun x tile =>
                    (tile, (Z.of_nat x * tile_size.1, Z.of_nat y * tile_size.2)))
                 row)
          tiles).

Definition assemble_mosaic (tiles : list (list Image)) (tile_size : Z * Z)
  : Res Image :=
  match tiles with
  | [] => inl IndexError                                   (* tiles[0] *)
  | row0 :: _ =>
      let size := (Z.of_nat (length row0) * tile_size.1,
                   Z.of_nat (length tiles) * tile_size.2) in
      let mosaic := Image_new "RGB" size in
      inr (foldl (fun m c => paste m c.1 c.2) mosaic
                 (paste_calls tiles tile_size))
  end.

(** ** crop_to_fit *)

Definition crop_to_fit (img : Image) (tile_size : Z * Z) : Res Image :=
  let '(img_w, img_h) := size img in
  let '(tile_w, tile_h) := tile_size in
  let? img_aspect := floordiv img_w img_h in
  let? tile_aspect := floordiv tile_w tile_h in
  let? bx :=
    if decide (img_aspect > tile_aspect) then
      let crop_h := img_h in
      let crop_w := crop_h * tile_aspect in
      (* x_offset = (img_w - crop_width) // 2 : the name is not bound *)
      inl (NameError "crop_width")
    else
      let crop_w := img_w in
      let? crop_h := floordiv crop_w tile_aspect in
      let x_offset := 0 in
      let y_offset := (img_h - crop_h) `div` 2 in
      inr (x_offset, y_offset, x_offset + crop_w, y_offset + crop_h) in
  let img := crop img bx in
  inr (resize img (tile_w, tile_h) ANTIALIAS).

(** ** salient_colors *)

Definition salient_colors (img : loc) (clusters : nat) (size : Z)
  : M (list pixel) :=
  do im <- deref img;
  if decide (mode im = "RGB") then
    do_ assign img (thumbnail im (size, size));        (* in place *)
    do im <- deref img;
    let imgarr := fromimage im in
    let colors := kmeans imgarr clusters in
    let vecs := vq imgarr colors in
    let counts := histogram vecs (length colors) in
    let ranked_colors := take_rows colors (argsort (Z.opp <$> counts)) in
    ret ranked_colors
  else raise AssertionError.

(** ** The SQL statements *)

(** The rowid SQLite gives a new row of a table with these rowids. *)
Definition next_rowid (ids : list Z) : Z := foldr Z.max 0 ids + 1.

(** INSERT INTO Images (usages, w, h, filename) VALUES (?, ?, ?, ?); the
    result is [c.lastrowid]. *)
Definition INSERT_Images (usages w h : Z) (filename : string) : M Z :=
  do d <- get_db;
  if bool_decide (filename ∈ Images.filename <$> images d)
  then raise IntegrityError                       (* filename TEXT UNIQUE *)
  else
    let id := next_rowid (Images.image_id <$> images d) in
    do_ put_db (mkDB (images d ++ [Images.mk id usages w h filename])
                     (colors d));
    ret id.

(** INSERT INTO Colors (image_id, rank, L, a, b, red, green, blue) ... *)
Definition INSERT_Colors (image_id rank : Z) (L a b : Q) (red green blue : Z)
  : M unit :=
  do d <- get_db;
  let id := next_rowid (Colors.color_id <$> colors d) in
  put_db (mkDB (images d)
               (colors d ++
                [Colors.mk id image_id rank L a b red green blue])).

(** UPDATE Images SET usages=0 *)
Definition UPDATE_reset : M unit :=
  do d <- get_db;
  put_db (mkDB ((fun r => Images.mk (Images.image_id r) 0 (Images.w r)
                            (Images.h r) (Images.filename r)) <$> images d)
               (colors d)).

Definition used_once_more (r : Images.row) : Images.row :=
  Images.mk (Images.image_id r) (Images.usages r + 1) (Images.w r)
            (Images.h r) (Images.filename r).

(** UPDATE Images SET usages=usages+1 WHERE image_id=? *)
Definition UPDATE_usages (image_id : Z) : M unit :=
  do d <- get_db;
  put_db (mkDB ((fun r => if decide (Images.image_id r = image_id)
                          then used_once_more r else r) <$> images d)
               (colors d)).

(** (a-?)*(a-?) + (b-?)*(b-?) as ab_distance, each difference, product
    and the sum rounded to binary64. *)
Definition ab_score (target_a target_b : Q) (a b : Q) : Q :=
  fl (fl (fl (a - target_a) * fl (a - target_a))
      + fl (fl (b - target_b) * fl (b - target_b)))%Q.

Definition join_row (target_a target_b : Q) (c : Colors.row) (i : Images.row)
  : Match.row :=
  Match.mk (Colors.image_id c) (Colors.L c) (Colors.a c) (Colors.b c)
           (ab_score target_a target_b (Colors.a c) (Colors.b c))
           (Colors.rank c) (Images.usages i) (Images.filename i).

(** FROM Colors JOIN Images USING (image_id), with the selected columns. *)
Definition joined (d : DB) (target_a target_b : Q) : list Match.row :=
  colors d ≫= (fun c =>
    join_row target_a target_b c <$>
      filter (fun i => Images.image_id i = Colors.image_id c) (images d)).

(** WHERE usages <= ? *)
Definition eligible (d : DB) (target_a target_b : Q) (max_usages : Z)
  : list Match.row :=
  filter (fun r => Match.usages r ≤ max_usages) (joined d target_a target_b).

Definition by_ab_distance : Match.row → Match.row → bool :=
  key_le Match.ab_distance.

(** The whole SELECT ... ORDER BY ab_distance ASC LIMIT ? (SQLite fixes no
    order among rows of equal ab_distance; here they stay in the order of
    the join). *)
Definition SELECT_candidates (target_a target_b : Q) (max_usages : Z)
    (limit : nat) : M (list Match.row) :=
  do d <- get_db;
  ret (take limit (sort_by by_ab_distance
                     (eligible d target_a target_b max_usages))).

(** ** insert *)

Fixpoint insert_colors (image_id : Z) (i : nat) (rgb : list pixel)
    (lab : list (Q * Q * Q)) : M unit :=
  match rgb with
  | [] => ret ()
  | (red, green, blue) :: rgb' =>
      match lab !! i with
      | None => raise IndexError                              (* lab[i] *)
      | Some (L, a, b) =>
          let rank := 1 + Z.of_nat i in
          do_ INSERT_Colors image_id rank L a b red green blue;
          insert_colors image_id (S i) rgb' lab
      end
  end.

Definition already_in_table (filename : string) : string :=
  "Image " +:+ filename +:+ " is already in the table. Skipping it.".

Definition insert (filename : string) (w h : Z) (rgb : list pixel)
    (lab : list (Q * Q * Q)) : M unit :=
  try_except
    (do image_id <- INSERT_Images 0 w h filename;
     insert_colors image_id 0 rgb lab)
    (fun e => bool_decide (e = IntegrityError))
    (print (already_in_table filename)).

(** ** reset_usage *)

Definition reset_usage : M unit := UPDATE_reset.

(** ** create_tables and create_image_pool *)

(** CREATE TABLE IF NOT EXISTS: the store of the model has both tables from
    the start; their constraints are part of the INSERT statements. *)
Definition create_tables : M unit := ret ().

(** The body of the loop of [create_image_pool] for one file. *)
Definition pool_file (filename : string) : M unit :=
  match disk filename with
  | None => print ("Cannot open " +:+ filename +:+ " as an image. Skipping it.")
  | Some im =>
      do img <- alloc im;
      if decide (mode im = "RGB") then
        let '(w, h) := size im in
        do rgb_colors <- salient_colors img 4 100;
        let lab_colors := rgb2lab <$> rgb_colors in
        insert filename w h rgb_colors lab_colors
      else print ("RGB images only. Skipping " +:+ filename +:+ ".")
  end.

(** [walker] is what the DirectoryWalker yields. *)
Definition create_image_pool (walker : list string) : M unit :=
  do_ create_tables;
  do_ mapM pool_file walker;
  ret ().

(** ** find_match *)

Definition LIMIT : nat := 10.

(** Line 185 is [map(rgb2lab, salient_colors(tile))[0]].  The arguments of
    [map] are evaluated in order, and the first is the global name
    [rgb2lab]: the module imports color_spaces as [cs] and binds no name
    [rgb2lab], so the call ends there, before [salient_colors] is called
    and before the query. *)
Definition find_match (tile : loc) (max_usages : Z) : M Match.row :=
  do rgb2lab_ <- unbound "rgb2lab";
  do colors <- salient_colors tile 4 100;
  match (rgb2lab_ : pixel → Q * Q * Q) <$> colors with
  | [] => raise IndexError                                       (* [0] *)
  | (target_l, target_a, target_b) :: _ =>
      do rows <- SELECT_candidates target_a target_b max_usages LIMIT;
      match head rows with                              (* c.fetchone() *)
      | None => raise TypeError                    (* match['image_id'] *)
      | Some match_ =>
          do_ UPDATE_usages (Match.image_id match_);
          ret match_
      end
  end.

(** ** make_tile and photomosaic *)

Definition Image_open (filename : string) : M Image :=
  match disk filename with
  | Some im => ret im
  | None => raise IOError
  end.

Definition make_tile (match_ : Match.row) (tile_size : Z * Z) : M Image :=
  do raw <- Image_open (Match.filename match_);
  lift (crop_to_fit raw tile_size).

(** What [photomosaic] gives back: 1 when the target cannot be opened, the
    mosaic otherwise. *)
Inductive outcome : Type :=
| Status (n : Z)
| Mosaic (img : Image).

(** The body of the two loops for one tile (the tile object made by
    [crop] enters the store when its reference is taken). *)
Definition replace_tile (tile_size : Z * Z) (tile : Image) : M Image :=
  do l <- alloc tile;
  do match_ <- find_match l 5;
  do_ print "ab_distance %f.04   rank %d";
  make_tile match_ tile_size.

(** [db.close()] on a connection whose last commit left the pool
    [committed]: what was written since is discarded. *)
Definition db_close (committed : DB) : M unit := put_db committed.

Definition photomosaic (target_filename : string) (tile_size : Z * Z)
  : M outcome :=
  match disk target_filename with
  | None =>
      do_ print ("Cannot open " +:+ target_filename +:+ " as an image.");
      ret (Status 1)
  | Some target_img =>
      do tiles <- lift (partition_target target_img tile_size);
      (* db = connect(db_path); reset_usage, the first statement of the
         try block, commits and does not raise; the loops commit nothing *)
      do_ reset_usage;
      do committed <- get_db;
      do tiles <- try_finally (mapM (mapM (replace_tile tile_size)) tiles)
                              (db_close committed);
      do mosaic <- lift (assemble_mosaic tiles tile_size);
      ret (Mosaic mosaic)
  end.

(** ** Notions the properties are stated with *)

(** Lines 20 to 25 of [salient_colors], on the value of the image. *)
Definition ranked_colors (im : Image) (clusters : nat) : list pixel :=
  let imgarr := fromimage im in
  let colors := kmeans imgarr clusters in
  let vecs := vq imgarr colors in
  let counts := histogram vecs (length colors) in
  take_rows colors (argsort (Z.opp <$> counts)).

(** The indices [salient_colors] ranks the centroids by. *)
Definition ranking (im : Image) (clusters : nat) : list nat :=
  let imgarr := fromimage im in
  let colors := kmeans imgarr clusters in
  argsort (Z.opp <$> histogram (vq imgarr colors) (length colors)).

(** The key (or count) at an index of an array. *)
Definition at_index (keys : list Z) (i : nat) : Z := default 0 (keys !! i).

(** The state once the image at [l] has been made a thumbnail. *)
Definition shrunk (σ : World) (l : loc) (im : Image) (s : Z) : World :=
  mkWorld (<[l := thumbnail im (s, s)]> (heap σ)) (db σ) (stdout σ).

(** The number of observations the quantisation assigns to the centroid
    of index [i]: the abundance of that colour. *)
Definition members (vecs : list Z) (i : nat) : Z :=
  Z.of_nat (length (filter (fun v => v = Z.of_nat i) vecs)).



(** The pool after one more use of the image [image_id]. *)
Definition used (d : DB) (image_id : Z) : DB :=
  mkDB ((fun r => if decide (Images.image_id r = image_id)
                  then used_once_more r else r) <$> images d)
       (colors d).

(** The UNIQUE constraint on Images.filename, a filename that has its
    Images row, and the Images rows of a filename. *)
Definition unique_filenames (d : DB) : Prop :=
  NoDup (Images.filename <$> images d).

Definition registered (d : DB) (filename : string) : Prop :=
  filename ∈ Images.filename <$> images d.

Definition rows_of (d : DB) (filename : string) : list Images.row :=
  filter (fun r => Images.filename r = filename) (images d).

(** ** Concrete pools, states and files *)

Definition tile_image : Image := plain "RGB" (1, 1) (120, 60, 30).

Definition photo_image : Image := plain "RGB" (310, 200) (120, 60, 30).

(** A pool of one image, used [n] times so far, with one colour. *)
Definition pool_one (n : Z) : DB :=
  mkDB [Images.mk 1 n 640 480 "a.jpg"]
       [Colors.mk 1 1 1 (50 # 1) (10 # 1) (20 # 1) 200 100 50].

(** A pool of two images with two colours each. *)
Definition pool_two : DB :=
  mkDB [Images.mk 1 0 640 480 "a.jpg"; Images.mk 2 3 800 600 "b.jpg"]
       [Colors.mk 1 1 1 (50 # 1) (10 # 1) (20 # 1) 200 100 50;
        Colors.mk 2 1 2 (70 # 1) (61 # 1) (30 # 1) 20 10 5;
        Colors.mk 3 2 1 (40 # 1) (58 # 1) (33 # 1) 90 80 70;
        Colors.mk 4 2 2 (10 # 1) (60 # 1) (31 # 1) 9 8 7].

Definition pool_empty : DB := mkDB [] [].

(** A state with one image object, at reference 0. *)
Definition world_of (im : Image) (d : DB) : World :=
  mkWorld {[ 0%nat := im ]} d [].

(** The files of a run: a target of [n] x 1 pixels and the pool image. *)
Definition toy_disk (n : Z) : string → option Image :=
  fun f =>
    if decide (f = "target.png") then Some (plain "RGB" (n, 1) (120, 60, 30))
    else if decide (f = "a.jpg") then Some (plain "RGB" (1, 1) (200, 100, 50))
    else None.

(** ** Notions of the further properties *)

(** The PRIMARY KEY constraints of the two tables. *)
Definition primary_keys (d : DB) : Prop :=
  NoDup (Images.image_id <$> images d) ∧ NoDup (Colors.color_id <$> colors d).

(** Two Images rows that differ at most in the usage count; two pools with
    the same Colors rows and the same Images rows but for the counts. *)
Definition same_image (r r' : Images.row) : Prop :=
  Images.image_id r' = Images.image_id r ∧ Images.w r' = Images.w r ∧
  Images.h r' = Images.h r ∧ Images.filename r' = Images.filename r.

Definition same_rows (d d' : DB) : Prop :=
  colors d' = colors d ∧ Forall2 same_image (images d) (images d').

(** No usage count of [d'] is below the one of the same row of [d]. *)
Definition usages_grow (d d' : DB) : Prop :=
  Forall2 (fun r r' => Images.usages r ≤ Images.usages r')
          (images d) (images d').


(** More concrete inputs: an image wider than high, one that is not RGB,
    and a state whose store is empty. *)
Definition wide_image : Image := plain "RGB" (150, 100) (120, 60, 30).

Definition grey_image : Image := plain "L" (1, 1) (7, 7, 7).

Definition world_start (d : DB) : World := mkWorld ∅ d [].

(** * Properties *)

Lemma range_length (n : Z) : length (range n) = Z.to_nat n.
Proof. unfold range. by rewrite length_fmap, length_seq. Qed.

Lemma range_lookup (n : Z) (i : nat) (x : Z) :
  range n !! i = Some x ↔ x = Z.of_nat i ∧ (i < Z.to_nat n)%nat.
Proof.
  unfold range. rewrite list_lookup_fmap, fmap_Some. split.
  - intros (k & Hk & ->). apply lookup_seq in Hk as [-> ?]. done.
  - intros [-> ?]. exists i. split; [|done]. by apply lookup_seq.
Qed.

(** C7. For a tile size of positive width and height, [partition_target]
    returns a grid of floor(height / tile_h) rows of floor(width / tile_w)
    tiles each; the tile at (x, y) is the crop of the target at
    (x * tile_w, y * tile_h) of exactly one tile, it lies within the target,
    and the strip left over on each axis is smaller than a tile. *)
Theorem partition_target_grid (img : Image) (tile_w tile_h : Z) :
  0 < tile_w → 0 < tile_h →
  ∃ tiles,
    partition_target img (tile_w, tile_h) = inr tiles ∧
    length tiles = Z.to_nat ((size img).2 `div` tile_h) ∧
    Forall (fun row => length row = Z.to_nat ((size img).1 `div` tile_w)) tiles ∧
    (0 ≤ (size img).1 - (size img).1 `div` tile_w * tile_w < tile_w) ∧
    (0 ≤ (size img).2 - (size img).2 `div` tile_h * tile_h < tile_h) ∧
    ∀ (x y : nat) row tile,
      tiles !! y = Some row → row !! x = Some tile →
      tile = crop img (Z.of_nat x * tile_w, Z.of_nat y * tile_h,
                       (Z.of_nat x + 1) * tile_w, (Z.of_nat y + 1) * tile_h) ∧
      size tile = (tile_w, tile_h) ∧
      (Z.of_nat x + 1) * tile_w ≤ (size img).1 ∧
      (Z.of_nat y + 1) * tile_h ≤ (size img).2.
Proof.
  intros Hw Hh. unfold partition_target, floordiv. simpl.
  rewrite !decide_False by lia. simpl.
  eexists. split; [reflexivity|].
  split; [by rewrite length_fmap, range_length|].
  split.
  { apply Forall_fmap, Forall_forall. intros y _. simpl.
    by rewrite length_fmap, range_length. }
  pose proof (Z.mod_pos_bound (size img).1 tile_w Hw) as Hmw.
  pose proof (Z.mod_pos_bound (size img).2 tile_h Hh) as Hmh.
  pose proof (Z.div_mod (size img).1 tile_w ltac:(lia)) as Hdw.
  pose proof (Z.div_mod (size img).2 tile_h ltac:(lia)) as Hdh.
  split; [lia|]. split; [lia|].
  intros x y row tile Hrow Htile.
  rewrite list_lookup_fmap, fmap_Some in Hrow.
  destruct Hrow as (yz & Hy & ->).
  rewrite list_lookup_fmap, fmap_Some in Htile.
  destruct Htile as (xz & Hx & ->).
  apply range_lookup in Hy as [-> Hy]. apply range_lookup in Hx as [-> Hx].
  split; [done|]. split; [simpl; f_equal; lia|].
  split; nia.
Qed.

(** ** assemble_mosaic *)

Lemma paste_calls_elem (tiles : list (list Image)) (ts : Z * Z)
    (c : Image * (Z * Z)) :
  c ∈ paste_calls tiles ts ↔
  ∃ (x y : nat) row tile,
    tiles !! y = Some row ∧ row !! x = Some tile ∧
    c = (tile, (Z.of_nat x * ts.1, Z.of_nat y * ts.2)).
Proof.
  unfold paste_calls. rewrite list_elem_of_join. split.
  - intros (l & Hc & Hl). apply elem_of_lookup_imap in Hl as (y & row & -> & Hrow).
    apply elem_of_lookup_imap in Hc as (x & tile & -> & Htile). eauto 10.
  - intros (x & y & row & tile & Hrow & Htile & ->).
    eexists. split; [|by eapply elem_of_lookup_imap_2].
    by apply (elem_of_lookup_imap_2 (fun x tile => (tile, (Z.of_nat x * ts.1, Z.of_nat y * ts.2)))).
Qed.

(** After a sequence of paste calls a pixel shows the value [val] when some
    call covers it and every call that covers it writes [val]. *)
Lemma foldl_paste_pix (calls : list (Image * (Z * Z))) (canvas : Image)
    (u v : Z) (val : pixel) :
  (∀ c, c ∈ calls → covers c.1 c.2 u v = true →
        pix c.1 (u - c.2.1) (v - c.2.2) = val) →
  (∃ c, c ∈ calls ∧ covers c.1 c.2 u v = true) ∨ pix canvas u v = val →
  pix (foldl (fun m c => paste m c.1 c.2) canvas calls) u v = val.
Proof.
  revert canvas. induction calls as [|c calls IH]; intros canvas Hall Hsome.
  - simpl. destruct Hsome as [(c & Hc & _)|]; [by apply elem_of_nil in Hc|done].
  - simpl. apply IH.
    + intros c' Hc'. apply Hall. by right.
    + destruct (covers c.1 c.2 u v) eqn:Hcov.
      * right. simpl. rewrite Hcov. apply Hall; [by left|done].
      * destruct Hsome as [(c' & Hc' & Hcov')|Hcanvas].
        -- apply elem_of_cons in Hc' as [->|Hc']; [congruence|]. left. eauto.
        -- right. simpl. by rewrite Hcov.
Qed.

Lemma foldl_paste_size (calls : list (Image * (Z * Z))) (canvas : Image) :
  size (foldl (fun m c => paste m c.1 c.2) canvas calls) = size canvas ∧
  mode (foldl (fun m c => paste m c.1 c.2) canvas calls) = mode canvas.
Proof.
  revert canvas. induction calls as [|c calls IH]; intros canvas; [done|].
  simpl. destruct (IH (paste canvas c.1 c.2)) as [-> ->]. done.
Qed.

(** C8. For a grid of [rows] rows (at least one) of [cols] tiles each,
    [assemble_mosaic] returns an RGB canvas of (cols * tile_w, rows * tile_h)
    pixels; the tile at grid position (x, y) is pasted at the offset
    (x * tile_w, y * tile_h); and when the tiles have the size of a tile,
    every pixel of the footprint of a tile on the canvas is the pixel of
    that tile, unblended. *)
Theorem assemble_mosaic_canvas (tiles : list (list Image)) (tile_w tile_h : Z)
    (rows cols : nat) :
  length tiles = rows → (0 < rows)%nat →
  Forall (fun row => length row = cols) tiles →
  ∃ mosaic,
    assemble_mosaic tiles (tile_w, tile_h) = inr mosaic ∧
    mode mosaic = "RGB" ∧
    size mosaic = (Z.of_nat cols * tile_w, Z.of_nat rows * tile_h) ∧
    mosaic = foldl (fun m c => paste m c.1 c.2)
               (Image_new "RGB" (Z.of_nat cols * tile_w, Z.of_nat rows * tile_h))
               (paste_calls tiles (tile_w, tile_h)) ∧
    ∀ (x y : nat) row tile,
      tiles !! y = Some row → row !! x = Some tile →
      (x < cols)%nat ∧ (y < rows)%nat ∧
      (tile, (Z.of_nat x * tile_w, Z.of_nat y * tile_h))
        ∈ paste_calls tiles (tile_w, tile_h) ∧
      (Forall (Forall (fun t => size t = (tile_w, tile_h))) tiles →
       ∀ i j, 0 ≤ i < tile_w → 0 ≤ j < tile_h →
         pix mosaic (Z.of_nat x * tile_w + i) (Z.of_nat y * tile_h + j)
         = pix tile i j).
Proof.
  intros Hrows Hpos Hrect. destruct tiles as [|row0 tiles']; [simpl in *; lia|].
  assert (Hcols : length row0 = cols) by (by apply Forall_cons in Hrect as [? _]).
  unfold assemble_mosaic. rewrite Hcols, Hrows. eexists. split; [reflexivity|].
  split; [apply foldl_paste_size|]. split; [apply foldl_paste_size|].
  split; [reflexivity|].
  intros x y row tile Hrow Htile.
  assert (Hrowlen : length row = cols).
  { rewrite Forall_forall in Hrect. apply Hrect. by eapply list_elem_of_lookup_2. }
  split; [rewrite <- Hrowlen; by eapply lookup_lt_Some|].
  split; [rewrite <- Hrows; by eapply lookup_lt_Some|].
  split; [apply paste_calls_elem; simpl; eauto 10|].
  intros Hsizes i j Hi Hj. apply foldl_paste_pix.
  - intros c Hc Hcov.
    apply paste_calls_elem in Hc as (x' & y' & row' & tile' & Hrow' & Htile' & ->).
    simpl in *.
    assert (Hsz : size tile' = (tile_w, tile_h)).
    { rewrite Forall_forall in Hsizes.
      specialize (Hsizes row' ltac:(by eapply list_elem_of_lookup_2)).
      rewrite Forall_forall in Hsizes. apply Hsizes.
      by eapply list_elem_of_lookup_2. }
    unfold covers, inside in Hcov. rewrite Hsz in Hcov. simpl in Hcov.
    apply bool_decide_eq_true in Hcov.
    assert (x' = x) as -> by nia. assert (y' = y) as -> by nia.
    assert (row' = row) as -> by congruence.
    assert (tile' = tile) as -> by congruence.
    f_equal; lia.
  - left. exists (tile, (Z.of_nat x * tile_w, Z.of_nat y * tile_h)).
    split; [apply paste_calls_elem; simpl; eauto 10|].
    assert (Hsz : size tile = (tile_w, tile_h)).
    { rewrite Forall_forall in Hsizes.
      specialize (Hsizes row ltac:(by eapply list_elem_of_lookup_2)).
      rewrite Forall_forall in Hsizes. apply Hsizes.
      by eapply list_elem_of_lookup_2. }
    unfold covers, inside. simpl. rewrite Hsz. simpl.
    apply bool_decide_eq_true. lia.
Qed.

(** ** crop_to_fit *)

(** The first branch ends in the NameError on [crop_width]; a tile that is
    higher than wide has the integer aspect ratio 0, which sends every
    image into the first branch or into a division by zero. *)
Lemma crop_to_fit_wider_raises
    (img : Image) (tile_w tile_h : Z) :
  (size img).2 ≠ 0 → tile_h ≠ 0 →
  (size img).1 `div` (size img).2 > tile_w `div` tile_h →
  crop_to_fit img (tile_w, tile_h) = inl (NameError "crop_width").
Proof.
  intros Hh Ht Hgt. unfold crop_to_fit, floordiv. destruct (size img) as [iw ih].
  simpl in *. rewrite !decide_False by done. simpl. by rewrite decide_True.
Qed.

Lemma crop_to_fit_tall_tile_raises
    (img : Image) (tile_w tile_h : Z) :
  0 ≤ tile_w < tile_h →
  ∃ e, crop_to_fit img (tile_w, tile_h) = inl e.
Proof.
  intros Ht. unfold crop_to_fit, floordiv. destruct (size img) as [iw ih].
  destruct (decide (ih = 0)); [eauto|]. simpl.
  rewrite decide_False by lia. simpl. rewrite (Z.div_small tile_w tile_h) by lia.
  destruct (decide _); simpl; eauto.
Qed.

(** C9. [crop_to_fit] does not return a tile for every image: a 300 x 100
    image and a 100 x 100 tile end in the NameError on [crop_width], as
    does every image whose integer aspect ratio exceeds that of the tile;
    and for a tile that is higher than wide every image ends in an
    exception. *)
Theorem crop_to_fit_wide_image_raises :
  (∀ m p, crop_to_fit (mkImage m (300, 100) p) (100, 100)
          = inl (NameError "crop_width")) ∧
  (∀ img tile_w tile_h,
     (size img).2 ≠ 0 → tile_h ≠ 0 →
     (size img).1 `div` (size img).2 > tile_w `div` tile_h →
     crop_to_fit img (tile_w, tile_h) = inl (NameError "crop_width")) ∧
  (∀ img tile_w tile_h,
     0 ≤ tile_w < tile_h → ∃ e, crop_to_fit img (tile_w, tile_h) = inl e).
Proof.
  split; [|split].
  - intros m p. by apply crop_to_fit_wider_raises.
  - apply crop_to_fit_wider_raises.
  - apply crop_to_fit_tall_tile_raises.
Qed.

(** When it returns, the result has the size of the tile. *)
Lemma crop_to_fit_size
    (img tile : Image) (tile_size : Z * Z) :
  crop_to_fit img tile_size = inr tile → size tile = tile_size.
Proof.
  unfold crop_to_fit, floordiv. destruct (size img) as [iw ih].
  destruct tile_size as [tw th].
  repeat (destruct (decide _); simpl; try discriminate).
  by intros [= <-].
Qed.

(** ** salient_colors changes the image it is given *)

Lemma thumbnail_size_bound (sz : Z * Z) (s : Z) :
  1 ≤ s →
  (thumbnail_size sz (s, s)).1 ≤ s ∧ (thumbnail_size sz (s, s)).2 ≤ s.
Proof.
  intros Hs. unfold thumbnail_size. destruct sz as [x y]. simpl.
  destruct (decide (x > s)) as [Hx|Hx].
  - destruct (decide (Z.max ((y * s) `div` x) 1 > s)) as [Hy|Hy]; simpl; [|lia].
    split; [|lia]. apply Z.max_lub; [|lia].
    apply Z.div_le_upper_bound; nia.
  - destruct (decide (y > s)) as [Hy|Hy]; simpl; [|lia].
    split; [|lia]. apply Z.max_lub; [|lia].
    apply Z.div_le_upper_bound; nia.
Qed.

Lemma thumbnail_size_id (sz : Z * Z) (s : Z) :
  1 ≤ s → thumbnail_size sz (s, s) = sz → sz.1 ≤ s ∧ sz.2 ≤ s.
Proof.
  intros Hs Heq. pose proof (thumbnail_size_bound sz s Hs) as Hb.
  by rewrite Heq in Hb.
Qed.

Lemma thumbnail_size_of (im : Image) (bound : Z * Z) :
  size (thumbnail im bound) = thumbnail_size (size im) bound.
Proof. unfold thumbnail. destruct (decide _) as [->|]; done. Qed.

Lemma thumbnail_mode (im : Image) (bound : Z * Z) :
  mode (thumbnail im bound) = mode im.
Proof. unfold thumbnail. destruct (decide _); done. Qed.

Lemma salient_colors_not_rgb (σ : World) (img : loc) (im : Image)
    (clusters : nat) (s : Z) :
  heap σ !! img = Some im → mode im ≠ "RGB" →
  salient_colors img clusters s σ = (inl AssertionError, σ).
Proof.
  intros Him Hmode. unfold salient_colors, bind, deref, raise.
  rewrite Him. by rewrite decide_False.
Qed.

(** ** Sorting *)

Section SortBy.

Context {A : Type} (le : A → A → bool).

Lemma insert_sorted_perm (x : A) (l : list A) :
  insert_sorted le x l ≡ₚ x :: l.
Proof.
  induction l as [|y l IH]; simpl; [done|].
  destruct (le x y); [done|]. rewrite IH. apply Permutation_swap.
Qed.

Lemma sort_by_perm (l : list A) : sort_by le l ≡ₚ l.
Proof.
  induction l as [|x l IH]; simpl; [done|].
  rewrite insert_sorted_perm. by rewrite IH.
Qed.

Lemma head_insert_sorted (x : A) (l : list A) :
  head (insert_sorted le x l)
  = match head l with
    | None => Some x
    | Some y => if le x y then Some x else Some y
    end.
Proof. destruct l as [|y l]; simpl; [done|]. by destruct (le x y). Qed.

Lemma head_sort_by_nil (l : list A) : head (sort_by le l) = None ↔ l = [].
Proof.
  split; [|by intros ->]. destruct l as [|x l]; [done|].
  simpl. rewrite head_insert_sorted.
  destruct (head _); [destruct (le _ _)|]; done.
Qed.

(** For a total preorder the result is in order, and its first element is
    the first least element of the list. *)
Hypothesis le_total : ∀ x y, le x y = false → le y x = true.
Hypothesis le_trans : ∀ x y z, le x y = true → le y z = true → le x z = true.

Lemma insert_sorted_sorted (x : A) (l : list A) :
  StronglySorted (fun x y => le x y = true) l →
  StronglySorted (fun x y => le x y = true) (insert_sorted le x l).
Proof.
  induction 1 as [|y l Hl IH Hy]; simpl.
  - repeat constructor.
  - destruct (le x y) eqn:Hxy.
    + constructor; [by constructor|].
      constructor; [done|]. eapply Forall_impl; [exact Hy|].
      intros z Hz. simpl in Hz. by eapply le_trans.
    + constructor; [done|].
      rewrite insert_sorted_perm. constructor; [|done]. by apply le_total.
Qed.

Lemma sort_by_sorted (l : list A) :
  StronglySorted (fun x y => le x y = true) (sort_by le l).
Proof.
  induction l as [|x l IH]; simpl; [constructor|].
  by apply insert_sorted_sorted.
Qed.

Lemma head_sort_by_first (l : list A) (m : A) :
  head (sort_by le l) = Some m →
  ∃ l1 l2, l = l1 ++ m :: l2 ∧
    (∀ r, r ∈ l1 → le r m = false) ∧
    (∀ r, r ∈ l2 → le m r = true).
Proof.
  revert m. induction l as [|x l IH]; intros m; simpl; [done|].
  rewrite head_insert_sorted.
  destruct (head (sort_by le l)) as [m'|] eqn:Hhead.
  - destruct (IH m' eq_refl) as (l1 & l2 & -> & Hl1 & Hl2).
    destruct (le x m') eqn:Hx; intros [= <-].
    + exists [], (l1 ++ m' :: l2).
      split; [done|]. split; [by intros r ?%elem_of_nil|].
      intros r [Hr|[->|Hr]%elem_of_cons]%elem_of_app.
      * eapply le_trans; [exact Hx|]. by apply le_total, Hl1.
      * done.
      * eapply le_trans; [exact Hx|]. by apply Hl2.
    + exists (x :: l1), l2.
      split; [done|]. split; [|done].
      intros r [->|Hr]%elem_of_cons; [done|by apply Hl1].
  - apply head_sort_by_nil in Hhead as ->. intros [= <-].
    exists [], []. split; [done|]. split; by intros r ?%elem_of_nil.
Qed.

End SortBy.

(** The same for rows compared by a rational key. *)
Section SortByKey.

Context {A : Type} (key : A → Q).

Lemma key_le_true (x y : A) : key_le key x y = true ↔ Qle (key x) (key y).
Proof. apply Qle_bool_iff. Qed.

Lemma key_le_false (x y : A) :
  key_le key x y = false ↔ Qlt (key y) (key x).
Proof.
  unfold key_le. split; intros H.
  - apply Qnot_le_lt. intros Hle. apply Qle_bool_iff in Hle. congruence.
  - apply not_true_is_false. intros Hle. apply Qle_bool_iff in Hle.
    by apply Qlt_not_le in H.
Qed.

Lemma key_le_total (x y : A) :
  key_le key x y = false → key_le key y x = true.
Proof. rewrite key_le_false, key_le_true. apply Qlt_le_weak. Qed.

Lemma key_le_trans (x y z : A) :
  key_le key x y = true → key_le key y z = true → key_le key x z = true.
Proof. rewrite !key_le_true. apply Qle_trans. Qed.

Lemma sort_by_ascending (l : list A) :
  ascending key (sort_by (key_le key) l).
Proof.
  unfold ascending.
  pose proof (sort_by_sorted (key_le key) key_le_total key_le_trans l) as Hs.
  induction Hs as [|x l' Hl IH Hx]; constructor; [done|].
  eapply Forall_impl; [exact Hx|]. intros y Hy. by apply key_le_true.
Qed.

(** The first row of the sorted list is the first of the rows with the
    least key, in the order the rows come in. *)
Lemma head_sort_by_first_least (l : list A) (m : A) :
  head (sort_by (key_le key) l) = Some m →
  ∃ l1 l2, l = l1 ++ m :: l2 ∧
    (∀ r, r ∈ l1 → Qlt (key m) (key r)) ∧
    (∀ r, r ∈ l2 → Qle (key m) (key r)).
Proof.
  intros (l1 & l2 & -> & Hl1 & Hl2)%(head_sort_by_first _ key_le_total key_le_trans).
  exists l1, l2. split; [done|]. split.
  - intros r Hr. by apply key_le_false, Hl1.
  - intros r Hr. by apply key_le_true, Hl2.
Qed.

Lemma head_sort_by_least (l : list A) (m : A) :
  head (sort_by (key_le key) l) = Some m →
  m ∈ l ∧ ∀ r, r ∈ l → Qle (key m) (key r).
Proof.
  intros (l1 & l2 & -> & Hl1 & Hl2)%head_sort_by_first_least.
  split; [apply elem_of_app; right; by left|].
  intros r [Hr|[->|Hr]%elem_of_cons]%elem_of_app.
  - apply Qlt_le_weak. by apply Hl1.
  - apply Qle_refl.
  - by apply Hl2.
Qed.

End SortByKey.

Lemma head_take {A : Type} (n : nat) (l : list A) :
  (0 < n)%nat → head (take n l) = head l.
Proof. destruct n; [lia|]. by destruct l. Qed.

(** ** The run of salient_colors and the query of find_match *)

Lemma salient_colors_ranked (σ : World) (img : loc) (im : Image)
    (clusters : nat) (s : Z) :
  heap σ !! img = Some im → mode im = "RGB" →
  salient_colors img clusters s σ
  = (inr (ranked_colors (thumbnail im (s, s)) clusters), shrunk σ img im s).
Proof.
  intros Him Hmode. unfold salient_colors, bind, deref, assign, ret.
  rewrite Him. rewrite decide_True by done. simpl.
  by rewrite lookup_insert_eq.
Qed.

Lemma joined_elem (d : DB) (ta tb : Q) (r : Match.row) :
  r ∈ joined d ta tb ↔
  ∃ c i, c ∈ colors d ∧ i ∈ images d ∧
         Images.image_id i = Colors.image_id c ∧ r = join_row ta tb c i.
Proof.
  unfold joined. rewrite list_elem_of_bind. split.
  - intros (c & Hr & Hc). apply list_elem_of_fmap in Hr as (i & -> & Hi).
    apply list_elem_of_filter in Hi as [Hid Hi]. eauto 10.
  - intros (c & i & Hc & Hi & Hid & ->). exists c. split; [|done].
    apply list_elem_of_fmap. exists i. split; [done|].
    by apply list_elem_of_filter.
Qed.

Lemma eligible_elem (d : DB) (ta tb : Q) (max_usages : Z) (r : Match.row) :
  r ∈ eligible d ta tb max_usages ↔
  Match.usages r ≤ max_usages ∧ r ∈ joined d ta tb.
Proof. unfold eligible. by rewrite list_elem_of_filter. Qed.

Lemma joined_ab_distance (d : DB) (ta tb : Q) (r : Match.row) :
  r ∈ joined d ta tb →
  Match.ab_distance r = ab_score ta tb (Match.a r) (Match.b r).
Proof. by intros (c & i & _ & _ & _ & ->)%joined_elem. Qed.

(** What the query that follows line 185 holds in its cursor: rows that
    pass the usage filter, at most LIMIT = 10 of them, in ascending order
    of the ab_distance the query computes; the first of them has the least
    ab_distance of all the rows that pass the filter. *)
Lemma SELECT_candidates_rows (σ : World) (ta tb : Q) (max_usages : Z) :
  ∃ rows,
    SELECT_candidates ta tb max_usages LIMIT σ = (inr rows, σ) ∧
    ascending Match.ab_distance rows ∧
    (length rows ≤ 10)%nat ∧
    (∀ r, r ∈ rows → r ∈ eligible (db σ) ta tb max_usages) ∧
    (∀ m, head rows = Some m →
          ∀ r, r ∈ eligible (db σ) ta tb max_usages →
               Qle (Match.ab_distance m) (Match.ab_distance r)).
Proof.
  eexists. split; [reflexivity|]. split; [|split; [|split]].
  - unfold ascending. eapply StronglySorted_app_1_l. rewrite take_drop.
    apply (sort_by_ascending Match.ab_distance).
  - rewrite length_take. unfold LIMIT. lia.
  - intros r Hr%subseteq_take.
    by rewrite (sort_by_perm by_ab_distance) in Hr.
  - intros m Hm. rewrite head_take in Hm by (unfold LIMIT; lia).
    by apply (head_sort_by_least Match.ab_distance) in Hm as [_ Hleast].
Qed.


(** ** The usage filter of the query *)




(** ** salient_colors works on the caller's object *)

(** X11. [salient_colors] called on the reference of an image that is not
    RGB ends in the AssertionError with the state untouched: the image is
    not made a thumbnail.  Called on an RGB image, with a size of at least
    1, it returns and leaves in the store, at that very reference, the
    thumbnail of the image: neither side longer than the size, and a
    different size from before when a side was longer.  No other object
    and nothing of the pool changes. *)
Theorem salient_colors_in_place (σ : World) (img : loc) (im : Image)
    (clusters : nat) (s : Z) :
  heap σ !! img = Some im →
  (mode im ≠ "RGB" →
   salient_colors img clusters s σ = (inl AssertionError, σ)) ∧
  (mode im = "RGB" → 1 ≤ s →
   ∃ colors σ' im',
     salient_colors img clusters s σ = (inr colors, σ') ∧
     heap σ' !! img = Some im' ∧
     im' = thumbnail im (s, s) ∧
     (size im').1 ≤ s ∧ (size im').2 ≤ s ∧
     ((size im).1 > s ∨ (size im).2 > s → size im' ≠ size im) ∧
     (∀ l, l ≠ img → heap σ' !! l = heap σ !! l) ∧
     db σ' = db σ ∧ stdout σ' = stdout σ).
Proof.
  intros Him. split; [by apply salient_colors_not_rgb|].
  intros Hmode Hs.
  exists (ranked_colors (thumbnail im (s, s)) clusters), (shrunk σ img im s),
         (thumbnail im (s, s)).
  split; [by apply salient_colors_ranked|].
  split; [simpl; by rewrite lookup_insert_eq|]. split; [done|].
  rewrite thumbnail_size_of.
  pose proof (thumbnail_size_bound (size im) s Hs) as [Hb1 Hb2].
  split; [done|]. split; [done|].
  split.
  { intros Hlong Heq. rewrite Heq in Hb1, Hb2. lia. }
  split; [intros l Hl; simpl; by rewrite lookup_insert_ne|].
  done.
Qed.

(** ** The unbound name of find_match and its way out of photomosaic *)

(** Every call of [find_match] ends in the NameError of line 185, with the
    state as it was. *)
Lemma find_match_raises (σ : World) (tile : loc) (max_usages : Z) :
  find_match tile max_usages σ = (inl (NameError "rgb2lab"), σ).
Proof. reflexivity. Qed.

Lemma replace_tile_raises (tile_size : Z * Z) (t : Image) (σ : World) :
  replace_tile tile_size t σ
  = (inl (NameError "rgb2lab"),
     mkWorld (<[fresh (dom (heap σ)) := t]> (heap σ)) (db σ) (stdout σ)).
Proof. reflexivity. Qed.


(** ** insert *)

Lemma rows_of_registered (d : DB) (filename : string) :
  unique_filenames d → registered d filename →
  length (rows_of d filename) = 1%nat.
Proof.
  unfold unique_filenames, registered, rows_of.
  induction (images d) as [|r l IH]; simpl.
  - by intros _ ?%elem_of_nil.
  - intros [Hr Hl]%NoDup_cons Hin. rewrite filter_cons.
    destruct (decide (Images.filename r = filename)) as [Heq|Hne].
    + simpl. f_equal. apply length_zero_iff_nil.
      destruct (filter _ l) as [|r' l'] eqn:Hfilter; [done|]. exfalso.
      assert (Hr' : r' ∈ filter (fun r => Images.filename r = filename) l)
        by (rewrite Hfilter; by left).
      apply list_elem_of_filter in Hr' as [Hf Hr']. apply Hr.
      rewrite Heq, <- Hf. by apply list_elem_of_fmap_2.
    + apply IH; [done|]. apply elem_of_cons in Hin as [Heq|Hin]; [|done].
      by symmetry in Heq.
Qed.

Lemma insert_duplicate (σ : World) (filename : string) (w h : Z)
    (rgb : list pixel) (lab : list (Q * Q * Q)) :
  registered (db σ) filename →
  insert filename w h rgb lab σ
  = (inr (), mkWorld (heap σ) (db σ)
                     (stdout σ ++ [already_in_table filename])).
Proof.
  intros Hreg. unfold insert, try_except, bind at 1, INSERT_Images, bind, get_db.
  unfold registered in Hreg. rewrite bool_decide_eq_true_2 by done.
  reflexivity.
Qed.

Lemma insert_colors_images (image_id : Z) (rgb : list pixel)
    (lab : list (Q * Q * Q)) (i : nat) (σ : World) :
  images (db (insert_colors image_id i rgb lab σ).2) = images (db σ) ∧
  (insert_colors image_id i rgb lab σ).1 ≠ inl IntegrityError.
Proof.
  revert i σ. induction rgb as [|[[red green] blue] rgb IH]; intros i σ; simpl.
  - done.
  - destruct (lab !! i) as [[[L a] b]|]; [|done].
    unfold bind, INSERT_Colors, get_db, put_db. simpl.
    match goal with
    | |- context [insert_colors _ _ _ _ ?s] =>
        destruct (IH (S i) s) as [Himg Herr]
    end.
    split; [by rewrite Himg|done].
Qed.

(** A filename that is not registered gets its Images row, also when the
    loop over the colours raises. *)
Lemma insert_new_images (σ : World) (filename : string) (w h : Z)
    (rgb : list pixel) (lab : list (Q * Q * Q)) :
  ¬ registered (db σ) filename →
  images (db (insert filename w h rgb lab σ).2)
  = images (db σ) ++
    [Images.mk (next_rowid (Images.image_id <$> images (db σ))) 0 w h filename].
Proof.
  intros Hnew. unfold registered in Hnew.
  unfold insert, try_except, bind at 1, INSERT_Images, bind at 1, get_db.
  rewrite bool_decide_eq_false_2 by done.
  unfold bind at 1, put_db, ret. simpl.
  match goal with
  | |- context [insert_colors ?id 0 rgb lab ?s] =>
      pose proof (insert_colors_images id rgb lab 0 s) as [Himg Herr];
      destruct (insert_colors id 0 rgb lab s) as [[e|[]] σ']
  end; simpl in *; [|done].
  rewrite bool_decide_eq_false_2 by congruence. done.
Qed.

(** The pool after a call of [insert], whatever its outcome, holds the
    filename and keeps the UNIQUE constraint. *)
Lemma insert_registers (σ : World) (filename : string) (w h : Z)
    (rgb : list pixel) (lab : list (Q * Q * Q)) :
  unique_filenames (db σ) →
  unique_filenames (db (insert filename w h rgb lab σ).2) ∧
  registered (db (insert filename w h rgb lab σ).2) filename.
Proof.
  intros Huniq.
  destruct (decide (filename ∈ Images.filename <$> images (db σ)))
    as [Hreg|Hnew].
  - by rewrite insert_duplicate.
  - unfold unique_filenames, registered.
    rewrite insert_new_images by done. rewrite fmap_app. simpl. split.
    + apply NoDup_app. split; [done|]. split.
      * intros f Hf [->|[]%elem_of_nil]%elem_of_cons. done.
      * apply NoDup_singleton.
    + apply elem_of_app. right. by left.
Qed.

(** C6. In a pool that keeps the UNIQUE constraint, [insert] of a filename
    that is registered returns normally, prints that the image is already in
    the table, and leaves the state otherwise as it was: both tables are
    unchanged and there is exactly one Images row for the filename.  So a
    second [insert] of a filename, with whatever arguments, changes nothing
    of the pool the first one left. *)
Theorem insert_duplicate_is_noop (σ : World) (filename : string) (w h : Z)
    (rgb : list pixel) (lab : list (Q * Q * Q)) :
  unique_filenames (db σ) →
  (registered (db σ) filename →
   ∃ σ', insert filename w h rgb lab σ = (inr (), σ') ∧
         stdout σ' = stdout σ ++ [already_in_table filename] ∧
         db σ' = db σ ∧
         images (db σ') = images (db σ) ∧
         colors (db σ') = colors (db σ) ∧
         heap σ' = heap σ ∧
         length (rows_of (db σ') filename) = 1%nat) ∧
  (∀ w' h' rgb' lab',
     let σ1 := (insert filename w h rgb lab σ).2 in
     ∃ σ2, insert filename w' h' rgb' lab' σ1 = (inr (), σ2) ∧
           stdout σ2 = stdout σ1 ++ [already_in_table filename] ∧
           db σ2 = db σ1 ∧
           length (rows_of (db σ2) filename) = 1%nat).
Proof.
  intros Huniq. split.
  - intros Hreg. rewrite insert_duplicate by done. eexists. split; [done|].
    simpl. repeat split. by apply rows_of_registered.
  - intros w' h' rgb' lab' σ1.
    destruct (insert_registers σ filename w h rgb lab Huniq) as [Huniq1 Hreg1].
    fold σ1 in Huniq1, Hreg1. rewrite insert_duplicate by done.
    eexists. split; [done|]. simpl. repeat split.
    by apply rows_of_registered.
Qed.


(** ** The ranking of salient_colors *)

Lemma histogram_length (vecs : list Z) (n : nat) :
  length (histogram vecs n) = n.
Proof.
  unfold histogram. destruct vecs; [by rewrite length_replicate|].
  rewrite length_fmap, range_length. lia.
Qed.

Lemma argsort_perm (keys : list Z) : argsort keys ≡ₚ seq 0 (length keys).
Proof.
  unfold argsort. rewrite sort_by_perm. rewrite snd_zip; [done|].
  by rewrite length_seq.
Qed.

Lemma zip_seq_elem (keys : list Z) (p : Z * nat) :
  p ∈ zip keys (seq 0 (length keys)) → keys !! p.2 = Some p.1.
Proof.
  intros (i & Hi)%list_elem_of_lookup. destruct p as [k j].
  apply lookup_zip_Some in Hi as [Hk Hj].
  apply lookup_seq in Hj as [-> _]. done.
Qed.

Lemma argsort_ascending (keys : list Z) :
  StronglySorted (fun i j => at_index keys i ≤ at_index keys j) (argsort keys).
Proof.
  unfold argsort.
  set (le := fun p q : Z * nat => bool_decide (p.1 ≤ q.1)).
  assert (Hsorted : StronglySorted (fun p q => le p q = true)
                      (sort_by le (zip keys (seq 0 (length keys))))).
  { apply sort_by_sorted; unfold le.
    - intros p q Hpq%bool_decide_eq_false. apply bool_decide_eq_true. lia.
    - intros p q r Hpq%bool_decide_eq_true Hqr%bool_decide_eq_true.
      apply bool_decide_eq_true. lia. }
  assert (Hkeys : Forall (fun p => keys !! p.2 = Some p.1)
                    (sort_by le (zip keys (seq 0 (length keys))))).
  { apply Forall_forall. intros p Hp. rewrite sort_by_perm in Hp.
    by apply zip_seq_elem. }
  induction Hsorted as [|p ps Hps IH Hp]; simpl; [constructor|].
  apply Forall_cons in Hkeys as [Hkp Hkps].
  constructor; [by apply IH|].
  apply Forall_fmap, Forall_forall. intros q Hq. simpl.
  rewrite Forall_forall in Hp, Hkps.
  specialize (Hp q Hq). specialize (Hkps q Hq).
  unfold at_index. rewrite Hkp, Hkps. simpl.
  unfold le in Hp. by apply bool_decide_eq_true in Hp.
Qed.

Lemma take_rows_seq {A : Type} (l1 l2 : list A) :
  take_rows (l1 ++ l2) (seq (length l1) (length l2)) = l2.
Proof.
  unfold take_rows. revert l1. induction l2 as [|x l2 IH]; intros l1; [done|].
  simpl. rewrite lookup_app_r by lia. rewrite Nat.sub_diag. simpl. f_equal.
  specialize (IH (l1 ++ [x])). rewrite length_app in IH. simpl in IH.
  rewrite Nat.add_1_r, <- app_assoc in IH. exact IH.
Qed.

Lemma take_rows_perm {A : Type} (colors : list A) (perm : list nat) :
  perm ≡ₚ seq 0 (length colors) → take_rows colors perm ≡ₚ colors.
Proof.
  intros Hperm. pose proof (take_rows_seq [] colors) as Hseq.
  unfold take_rows in *. simpl in Hseq. by rewrite Hperm, Hseq.
Qed.

(** Whatever k-means and the quantisation return, [salient_colors] gives
    back the centroids of k-means, each once, in the order of [ranking];
    along it the counts of the histogram do not increase. *)
Lemma ranked_colors_ranking (im : Image) (clusters : nat) :
  let colors := kmeans (fromimage im) clusters in
  let counts := histogram (vq (fromimage im) colors) (length colors) in
  ranked_colors im clusters = take_rows colors (ranking im clusters) ∧
  ranking im clusters ≡ₚ seq 0 (length colors) ∧
  ranked_colors im clusters ≡ₚ colors ∧
  length (ranked_colors im clusters) = length colors ∧
  StronglySorted (fun i j => at_index counts j ≤ at_index counts i)
                 (ranking im clusters).
Proof.
  intros colors counts.
  assert (Hperm : ranking im clusters ≡ₚ seq 0 (length colors)).
  { unfold ranking. fold colors. rewrite argsort_perm.
    by rewrite length_fmap, histogram_length. }
  split; [done|]. split; [done|].
  assert (Hcolors : ranked_colors im clusters ≡ₚ colors)
    by (by apply take_rows_perm).
  split; [done|]. split; [by rewrite Hcolors|].
  unfold ranking. fold colors counts.
  pose proof (argsort_ascending (Z.opp <$> counts)) as Hs.
  induction Hs as [|i l Hl IH Hi]; constructor; [done|].
  eapply Forall_impl; [exact Hi|]. intros j Hj. simpl in Hj.
  unfold at_index in *. rewrite !list_lookup_fmap in Hj.
  destruct (counts !! i), (counts !! j); simpl in *; lia.
Qed.

(** The bins follow the range of the codes that occur: with no pixel at
    code 0 the counts move to other centroids. *)
Example histogram_follows_data_range :
  histogram [0; 0; 1; 3; 3; 3] 4 = [2; 1; 0; 3] ∧
  histogram [1; 1; 2; 3; 3; 3] 4 = [2; 0; 1; 3].
Proof. split; reflexivity. Qed.

(** * Further properties of the code *)

(** ** partition_target and assemble_mosaic at the edges *)

Lemma partition_target_lookup (img : Image) (tile_w tile_h : Z)
    (tiles : list (list Image)) (x y : nat) :
  partition_target img (tile_w, tile_h) = inr tiles →
  (y < Z.to_nat ((size img).2 `div` tile_h))%nat →
  (x < Z.to_nat ((size img).1 `div` tile_w))%nat →
  ∃ row, tiles !! y = Some row ∧
         row !! x = Some (crop img (Z.of_nat x * tile_w, Z.of_nat y * tile_h,
                                    (Z.of_nat x + 1) * tile_w,
                                    (Z.of_nat y + 1) * tile_h)).
Proof.
  unfold partition_target, floordiv. simpl.
  destruct (decide (tile_w = 0)); [done|]. simpl.
  destruct (decide (tile_h = 0)); [done|]. simpl.
  intros [= <-] Hy Hx. eexists. split.
  - rewrite list_lookup_fmap.
    by rewrite (proj2 (range_lookup _ y (Z.of_nat y)) (conj eq_refl Hy)).
  - simpl. rewrite list_lookup_fmap.
    by rewrite (proj2 (range_lookup _ x (Z.of_nat x)) (conj eq_refl Hx)).
Qed.

Lemma partition_target_no_rows (img : Image) (tile_w tile_h : Z) :
  tile_w ≠ 0 → 0 ≤ (size img).2 < tile_h →
  partition_target img (tile_w, tile_h) = inr [].
Proof.
  intros Hw Hh. unfold partition_target, floordiv. simpl.
  rewrite decide_False by done. simpl.
  rewrite decide_False by lia. simpl.
  rewrite (Z.div_small (size img).2 tile_h) by lia. done.
Qed.

(** X1. [partition_target] raises only for a tile side of 0, and then
    ZeroDivisionError; a target lower than a tile of positive height gives
    the grid without rows, and a target narrower than a tile of positive
    width gives rows without tiles. *)
Theorem partition_target_edges (img : Image) (tile_w tile_h : Z) :
  (∀ e, partition_target img (tile_w, tile_h) = inl e
        ↔ e = ZeroDivisionError ∧ (tile_w = 0 ∨ tile_h = 0)) ∧
  (tile_w ≠ 0 → 0 ≤ (size img).2 < tile_h →
   partition_target img (tile_w, tile_h) = inr []) ∧
  (tile_h ≠ 0 → 0 ≤ (size img).1 < tile_w →
   ∃ tiles, partition_target img (tile_w, tile_h) = inr tiles ∧
            Forall (fun row => row = []) tiles).
Proof.
  unfold partition_target, floordiv. simpl. split; [|split].
  - intros e. destruct (decide (tile_w = 0)) as [Hw|Hw]; simpl.
    + split; [intros [= <-]; auto|]. by intros [-> _].
    + destruct (decide (tile_h = 0)) as [Hh|Hh]; simpl.
      * split; [intros [= <-]; auto|]. by intros [-> _].
      * split; [done|]. intros [_ [?|?]]; done.
  - intros Hw Hh. by apply (partition_target_no_rows img tile_w tile_h).
  - intros Hh Hw. rewrite decide_False by lia. simpl.
    rewrite decide_False by done. simpl. eexists. split; [done|].
    rewrite (Z.div_small (size img).1 tile_w) by lia.
    apply Forall_fmap, Forall_forall. done.
Qed.


Lemma assemble_mosaic_pix (tiles : list (list Image)) (tile_w tile_h : Z)
    (mosaic : Image) (u v : Z) (val : pixel) :
  assemble_mosaic tiles (tile_w, tile_h) = inr mosaic →
  (∀ (x y : nat) row tile,
     tiles !! y = Some row → row !! x = Some tile →
     covers tile (Z.of_nat x * tile_w, Z.of_nat y * tile_h) u v = true →
     pix tile (u - Z.of_nat x * tile_w) (v - Z.of_nat y * tile_h) = val) →
  (∃ (x y : nat) row tile,
     tiles !! y = Some row ∧ row !! x = Some tile ∧
     covers tile (Z.of_nat x * tile_w, Z.of_nat y * tile_h) u v = true) →
  pix mosaic u v = val.
Proof.
  unfold assemble_mosaic. destruct tiles as [|row0 tiles']; [done|].
  intros [= <-] Hall (x & y & row & tile & Hrow & Htile & Hcov).
  apply foldl_paste_pix.
  - intros c (x' & y' & row' & tile' & Hrow' & Htile' & ->)%paste_calls_elem.
    simpl. by apply (Hall x' y' row' tile').
  - left. exists (tile, (Z.of_nat x * tile_w, Z.of_nat y * tile_h)).
    split; [|done]. apply paste_calls_elem. simpl. eauto 10.
Qed.

(** X3. Cutting a target into tiles and assembling the untouched tiles
    gives the target back on the area the whole tiles cover: for a tile of
    positive sides and a target at least one tile high, the canvas has
    floor(w / tile_w) * tile_w by floor(h / tile_h) * tile_h pixels and
    every one of them is the pixel of the target at the same place. *)
Theorem partition_then_assemble (img : Image) (tile_w tile_h : Z) :
  0 < tile_w → 0 < tile_h → 0 ≤ (size img).1 → tile_h ≤ (size img).2 →
  ∃ tiles mosaic,
    partition_target img (tile_w, tile_h) = inr tiles ∧
    assemble_mosaic tiles (tile_w, tile_h) = inr mosaic ∧
    size mosaic = ((size img).1 `div` tile_w * tile_w,
                   (size img).2 `div` tile_h * tile_h) ∧
    ∀ u v, 0 ≤ u < (size img).1 `div` tile_w * tile_w →
           0 ≤ v < (size img).2 `div` tile_h * tile_h →
           pix mosaic u v = pix img u v.
Proof.
  intros Hw Hh Hiw Hih.
  pose proof (Z.div_pos (size img).1 tile_w Hiw Hw) as Hcols.
  assert (Hrows : 1 ≤ (size img).2 `div` tile_h)
    by (apply Z.div_le_lower_bound; lia).
  pose proof (Z.mul_div_le (size img).1 tile_w Hw) as Hcw.
  pose proof (Z.mul_div_le (size img).2 tile_h Hh) as Hch.
  destruct (partition_target img (tile_w, tile_h)) as [e|tiles] eqn:Hpart.
  { exfalso. revert Hpart. unfold partition_target, floordiv. simpl.
    rewrite !decide_False by lia. done. }
  assert (Hgrid : ∀ (x y : nat) row tile,
            tiles !! y = Some row → row !! x = Some tile →
            tile = crop img (Z.of_nat x * tile_w, Z.of_nat y * tile_h,
                             (Z.of_nat x + 1) * tile_w,
                             (Z.of_nat y + 1) * tile_h) ∧
            (x < Z.to_nat ((size img).1 `div` tile_w))%nat ∧
            (y < Z.to_nat ((size img).2 `div` tile_h))%nat).
  { revert Hpart. unfold partition_target, floordiv. simpl.
    rewrite !decide_False by lia. simpl. intros [= <-] x y row tile Hrow Htile.
    rewrite list_lookup_fmap, fmap_Some in Hrow.
    destruct Hrow as (yz & Hy & ->).
    rewrite list_lookup_fmap, fmap_Some in Htile.
    destruct Htile as (xz & Hx & ->).
    apply range_lookup in Hy as [-> Hy]. apply range_lookup in Hx as [-> Hx].
    done. }
  assert (Hlen : length tiles = Z.to_nat ((size img).2 `div` tile_h) ∧
                 Forall (fun row => length row
                                    = Z.to_nat ((size img).1 `div` tile_w)) tiles).
  { revert Hpart. unfold partition_target, floordiv. simpl.
    rewrite !decide_False by lia. simpl. intros [= <-].
    split; [by rewrite length_fmap, range_length|].
    apply Forall_fmap, Forall_forall. intros y _. simpl.
    by rewrite length_fmap, range_length. }
  destruct Hlen as [Hlen Hrowlen].
  destruct tiles as [|row0 tiles']; [simpl in Hlen; lia|].
  eexists _, _. split; [reflexivity|]. split; [reflexivity|].
  split.
  { destruct (foldl_paste_size (paste_calls (row0 :: tiles') (tile_w, tile_h))
                (Image_new "RGB"
                   (Z.of_nat (length row0) * (tile_w, tile_h).1,
                    Z.of_nat (length (row0 :: tiles')) * (tile_w, tile_h).2)))
      as [-> _].
    apply Forall_cons in Hrowlen as [-> _]. rewrite Hlen. simpl.
    f_equal; lia. }
  intros u v Hu Hv.
  apply (assemble_mosaic_pix (row0 :: tiles') tile_w tile_h _ u v);
    [reflexivity| |].
  - intros x y row tile Hrow Htile Hcov.
    destruct (Hgrid x y row tile Hrow Htile) as (-> & Hx & Hy).
    unfold covers, inside in Hcov. simpl in Hcov.
    apply bool_decide_eq_true in Hcov. simpl.
    replace (Z.of_nat x * tile_w + (u - Z.of_nat x * tile_w)) with u by lia.
    replace (Z.of_nat y * tile_h + (v - Z.of_nat y * tile_h)) with v by lia.
    unfold inside. rewrite bool_decide_eq_true_2; [done|lia].
  - pose proof (Z.div_mod u tile_w ltac:(lia)) as Hdu.
    pose proof (Z.mod_pos_bound u tile_w Hw) as Hmu.
    pose proof (Z.div_mod v tile_h ltac:(lia)) as Hdv.
    pose proof (Z.mod_pos_bound v tile_h Hh) as Hmv.
    assert (Hx : (Z.to_nat (u `div` tile_w)
                  < Z.to_nat ((size img).1 `div` tile_w))%nat).
    { apply Z2Nat.inj_lt; [apply Z.div_pos; lia|done|].
      apply Z.div_lt_upper_bound; lia. }
    assert (Hy : (Z.to_nat (v `div` tile_h)
                  < Z.to_nat ((size img).2 `div` tile_h))%nat).
    { apply Z2Nat.inj_lt; [apply Z.div_pos; lia|lia|].
      apply Z.div_lt_upper_bound; lia. }
    destruct (partition_target_lookup img tile_w tile_h (row0 :: tiles')
                _ _ Hpart Hy Hx) as (row & Hrow & Htile).
    eexists _, _, row, _. split; [exact Hrow|]. split; [exact Htile|].
    unfold covers, inside. simpl. apply bool_decide_eq_true.
    rewrite !Z2Nat.id by (apply Z.div_pos; lia). lia.
Qed.

(** ** crop_to_fit when it returns *)

Lemma crop_to_fit_else (img : Image) (tile_w tile_h : Z) :
  (size img).2 ≠ 0 → tile_h ≠ 0 → tile_w `div` tile_h ≠ 0 →
  (size img).1 `div` (size img).2 ≤ tile_w `div` tile_h →
  crop_to_fit img (tile_w, tile_h)
  = inr (resize
           (crop img
              (0, ((size img).2 - (size img).1 `div` (tile_w `div` tile_h))
                  `div` 2,
               (size img).1,
               ((size img).2 - (size img).1 `div` (tile_w `div` tile_h))
               `div` 2 + (size img).1 `div` (tile_w `div` tile_h)))
           (tile_w, tile_h) ANTIALIAS).
Proof.
  intros Hih Hth Hta Hle. unfold crop_to_fit, floordiv.
  destruct (size img) as [iw ih]. simpl in *.
  rewrite !decide_False by done. simpl.
  rewrite decide_False by lia. rewrite decide_False by done. simpl.
  done.
Qed.

(** X4. [crop_to_fit] returns exactly when neither height is 0, the integer
    aspect ratio of the tile is not 0 and that of the image does not exceed
    it.  What it returns is the resize, to the tile size, of a box that
    spans the whole width of the image, is img_w // tile_aspect high and is
    centred on the height: the margins above and below differ by at most
    one pixel. *)
Theorem crop_to_fit_returns (img : Image) (tile_w tile_h : Z) :
  ((∃ t, crop_to_fit img (tile_w, tile_h) = inr t)
   ↔ (size img).2 ≠ 0 ∧ tile_h ≠ 0 ∧ tile_w `div` tile_h ≠ 0 ∧
     (size img).1 `div` (size img).2 ≤ tile_w `div` tile_h) ∧
  (∀ t, crop_to_fit img (tile_w, tile_h) = inr t →
     let crop_h := (size img).1 `div` (tile_w `div` tile_h) in
     let y_offset := ((size img).2 - crop_h) `div` 2 in
     t = resize (crop img (0, y_offset, (size img).1, y_offset + crop_h))
                (tile_w, tile_h) ANTIALIAS ∧
     size t = (tile_w, tile_h) ∧ mode t = mode img ∧
     0 ≤ ((size img).2 - (y_offset + crop_h)) - y_offset ≤ 1).
Proof.
  assert (Hiff : (∃ t, crop_to_fit img (tile_w, tile_h) = inr t)
                 → (size img).2 ≠ 0 ∧ tile_h ≠ 0 ∧ tile_w `div` tile_h ≠ 0 ∧
                   (size img).1 `div` (size img).2 ≤ tile_w `div` tile_h).
  { intros [t Ht]. revert Ht. unfold crop_to_fit, floordiv.
    destruct (size img) as [iw ih]. simpl.
    destruct (decide (ih = 0)); [done|]. simpl.
    destruct (decide (tile_h = 0)); [done|]. simpl.
    destruct (decide (iw `div` ih > tile_w `div` tile_h)); [done|].
    destruct (decide (tile_w `div` tile_h = 0)); [done|].
    intros _. repeat split; [done..|lia]. }
  split.
  - split; [exact Hiff|]. intros (Hih & Hth & Hta & Hle).
    rewrite crop_to_fit_else by done. eauto.
  - intros t Ht. destruct (Hiff (ex_intro _ t Ht)) as (Hih & Hth & Hta & Hle).
    rewrite crop_to_fit_else in Ht by done. injection Ht as <-.
    split; [done|]. split; [done|]. split; [done|].
    pose proof (Z.div_mod ((size img).2
                           - (size img).1 `div` (tile_w `div` tile_h)) 2
                  ltac:(lia)) as Hd.
    pose proof (Z.mod_pos_bound ((size img).2
                           - (size img).1 `div` (tile_w `div` tile_h)) 2
                  ltac:(lia)) as Hm.
    lia.
Qed.

(** X5. When the box is higher than the image (img_w // tile_aspect above
    img_h, as for an image wider than high and a square tile),
    [crop_to_fit] cuts nothing off the width: the box it resizes starts
    above the image, so the first line of the crop is black padding. *)
Theorem crop_to_fit_pads_wide_image (img : Image) (tile_w tile_h : Z) :
  (size img).2 ≠ 0 → tile_h ≠ 0 → tile_w `div` tile_h ≠ 0 →
  (size img).1 `div` (size img).2 ≤ tile_w `div` tile_h →
  (size img).2 < (size img).1 `div` (tile_w `div` tile_h) →
  ∃ y_offset crop_h,
    crop_to_fit img (tile_w, tile_h)
    = inr (resize (crop img (0, y_offset, (size img).1, y_offset + crop_h))
                  (tile_w, tile_h) ANTIALIAS) ∧
    y_offset < 0 ∧ (size img).2 < crop_h ∧
    size (crop img (0, y_offset, (size img).1, y_offset + crop_h))
    = ((size img).1, crop_h) ∧
    ∀ x, pix (crop img (0, y_offset, (size img).1, y_offset + crop_h)) x 0
         = black.
Proof.
  intros Hih Hth Hta Hle Hhigh.
  eexists _, _. split; [by apply crop_to_fit_else|].
  assert (Hneg : ((size img).2 - (size img).1 `div` (tile_w `div` tile_h))
                 `div` 2 < 0) by (apply Z.div_lt_upper_bound; lia).
  split; [done|]. split; [done|]. split; [simpl; f_equal; lia|].
  intros x. simpl. unfold inside.
  rewrite bool_decide_eq_false_2; [done|lia].
Qed.

(** ** insert of a filename that is not registered *)

Lemma foldr_max_snoc (ids : list Z) (x : Z) :
  foldr Z.max 0 (ids ++ [x]) = Z.max (foldr Z.max 0 ids) x.
Proof. induction ids as [|y ids IH]; simpl; lia. Qed.

Lemma next_rowid_snoc (ids : list Z) :
  next_rowid (ids ++ [next_rowid ids]) = next_rowid ids + 1.
Proof. unfold next_rowid. rewrite foldr_max_snoc. lia. Qed.

Lemma next_rowid_gt (ids : list Z) (x : Z) : x ∈ ids → x < next_rowid ids.
Proof.
  unfold next_rowid. induction ids as [|y ids IH]; simpl.
  - by intros ?%elem_of_nil.
  - intros [->|Hx]%elem_of_cons; [lia|]. specialize (IH Hx). lia.
Qed.

Lemma next_rowid_pos (ids : list Z) : 0 < next_rowid ids.
Proof. unfold next_rowid. induction ids as [|y ids IH]; simpl; lia. Qed.

(** The loop over the colours: it writes one Colors row per colour, in
    order, until the colours or the Lab triples run out, and raises
    IndexError in the second case. *)
Lemma insert_colors_run (image_id : Z) (rgb : list pixel)
    (lab : list (Q * Q * Q)) (i : nat) (σ : World) :
  (i ≤ length lab)%nat →
  ∃ rows,
    insert_colors image_id i rgb lab σ
    = (if decide (length rgb + i ≤ length lab)%nat
       then inr () else inl IndexError,
       mkWorld (heap σ) (mkDB (images (db σ)) (colors (db σ) ++ rows))
               (stdout σ)) ∧
    length rows = (length rgb `min` (length lab - i))%nat ∧
    ∀ k, (k < length rows)%nat →
      ∃ red green blue L a b,
        rgb !! k = Some (red, green, blue) ∧
        lab !! (i + k)%nat = Some (L, a, b) ∧
        rows !! k
        = Some (Colors.mk
                  (next_rowid (Colors.color_id <$> colors (db σ)) + Z.of_nat k)
                  image_id (1 + Z.of_nat (i + k)) L a b red green blue).
Proof.
  revert i σ. induction rgb as [|[[red green] blue] rgb IH]; intros i σ Hi.
  - exists []. simpl. rewrite decide_True by lia. rewrite app_nil_r.
    split; [by destruct σ as [? [] ?]|]. split; [done|]. intros k Hk. lia.
  - simpl. destruct (lab !! i) as [[[L a] b]|] eqn:Hlab.
    + pose proof (lookup_lt_Some _ _ _ Hlab) as Hlt.
      unfold bind at 1, INSERT_Colors, bind, get_db, put_db. simpl.
      set (new := Colors.mk (next_rowid (Colors.color_id <$> colors (db σ)))
                            image_id (1 + Z.of_nat i) L a b red green blue).
      set (σ1 := mkWorld (heap σ)
                         (mkDB (images (db σ)) (colors (db σ) ++ [new]))
                         (stdout σ)).
      destruct (IH (S i) σ1 ltac:(lia)) as (rows & Hrun & Hlen & Hrows).
      exists (new :: rows). rewrite Hrun. simpl.
      split; [|split].
      * rewrite <- app_assoc. simpl.
        destruct (decide (length rgb + S i ≤ length lab)%nat),
                 (decide (S (length rgb + i) ≤ length lab)%nat);
          first [done|lia].
      * rewrite Hlen. destruct (length lab - i)%nat as [|m'] eqn:Hsub; [lia|].
        f_equal. f_equal. lia.
      * intros k Hk. destruct k as [|k].
        -- exists red, green, blue, L, a, b. simpl.
           rewrite Nat.add_0_r, Z.add_0_r. done.
        -- destruct (Hrows k ltac:(lia))
             as (r' & g' & b' & L' & a' & b'' & Hrgb & Hl & Hrow).
           exists r', g', b', L', a', b''. simpl.
           split; [done|]. split; [by rewrite <- Nat.add_succ_comm|].
           rewrite Hrow. simpl. rewrite fmap_app. simpl.
           rewrite next_rowid_snoc. f_equal. f_equal; lia.
    + apply lookup_ge_None in Hlab. exists []. rewrite app_nil_r.
      rewrite decide_False by lia. unfold raise.
      split; [by destruct σ as [? [] ?]|]. split.
      { by replace (length lab - i)%nat with 0%nat by lia. }
      intros k Hk. simpl in Hk. lia.
Qed.

(** The whole of [insert] for a filename that is not registered. *)
Lemma insert_new_run (σ : World) (filename : string) (w h : Z)
    (rgb : list pixel) (lab : list (Q * Q * Q)) :
  ¬ registered (db σ) filename →
  ∃ rows,
    insert filename w h rgb lab σ
    = (if decide (length rgb ≤ length lab)%nat
       then inr () else inl IndexError,
       mkWorld (heap σ)
         (mkDB (images (db σ) ++
                [Images.mk (next_rowid (Images.image_id <$> images (db σ)))
                           0 w h filename])
               (colors (db σ) ++ rows))
         (stdout σ)) ∧
    length rows = (length rgb `min` length lab)%nat ∧
    ∀ k, (k < length rows)%nat →
      ∃ red green blue L a b,
        rgb !! k = Some (red, green, blue) ∧
        lab !! k = Some (L, a, b) ∧
        rows !! k
        = Some (Colors.mk
                  (next_rowid (Colors.color_id <$> colors (db σ)) + Z.of_nat k)
                  (next_rowid (Images.image_id <$> images (db σ)))
                  (1 + Z.of_nat k) L a b red green blue).
Proof.
  intros Hnew. unfold registered in Hnew.
  unfold insert, try_except, bind at 1, INSERT_Images, bind at 1, get_db.
  rewrite bool_decide_eq_false_2 by done.
  unfold bind at 1, put_db, ret. simpl.
  match goal with
  | |- context [insert_colors ?id 0 rgb lab ?s] =>
      destruct (insert_colors_run id rgb lab 0 s ltac:(lia))
        as (rows & Hrun & Hlen & Hrows)
  end.
  exists rows. rewrite Hrun. simpl in *.
  rewrite Nat.add_0_r, Nat.sub_0_r in *.
  split; [|split; [done|]].
  - destruct (decide (length rgb ≤ length lab)%nat); [done|].
    by rewrite bool_decide_eq_false_2.
  - intros k Hk.
    destruct (Hrows k Hk) as (r' & g' & b' & L' & a' & b'' & ? & ? & ?).
    exists r', g', b', L', a', b''. done.
Qed.

(** X6. [insert] of a filename that is not registered, with a Lab triple
    for every colour, returns normally and prints nothing.  It appends one
    Images row (a new image_id, usages 0, the given width, height and
    filename) and, after the Colors rows there were, one Colors row per
    colour, in order: the k-th has a new color_id, the image_id of the new
    Images row, rank k + 1 and the k-th Lab triple and colour. *)
Theorem insert_new_image (σ : World) (filename : string) (w h : Z)
    (rgb : list pixel) (lab : list (Q * Q * Q)) :
  ¬ registered (db σ) filename → (length rgb ≤ length lab)%nat →
  ∃ σ',
    insert filename w h rgb lab σ = (inr (), σ') ∧
    heap σ' = heap σ ∧ stdout σ' = stdout σ ∧
    images (db σ')
    = images (db σ) ++
      [Images.mk (next_rowid (Images.image_id <$> images (db σ))) 0 w h
                 filename] ∧
    (next_rowid (Images.image_id <$> images (db σ))
       ∉ Images.image_id <$> images (db σ)) ∧
    take (length (colors (db σ))) (colors (db σ')) = colors (db σ) ∧
    length (colors (db σ')) = (length (colors (db σ)) + length rgb)%nat ∧
    ∀ k red green blue,
      rgb !! k = Some (red, green, blue) →
      ∃ L a b,
        lab !! k = Some (L, a, b) ∧
        colors (db σ') !! (length (colors (db σ)) + k)%nat
        = Some (Colors.mk
                  (next_rowid (Colors.color_id <$> colors (db σ)) + Z.of_nat k)
                  (next_rowid (Images.image_id <$> images (db σ)))
                  (1 + Z.of_nat k) L a b red green blue).
Proof.
  intros Hnew Hlen.
  destruct (insert_new_run σ filename w h rgb lab Hnew)
    as (rows & Hrun & Hrowslen & Hrows).
  rewrite decide_True in Hrun by done. rewrite Nat.min_l in Hrowslen by done.
  eexists. split; [exact Hrun|]. simpl.
  split; [done|]. split; [done|]. split; [done|].
  split.
  { intros Hin%next_rowid_gt. lia. }
  split; [by rewrite take_app_length|].
  split; [by rewrite length_app, Hrowslen|].
  intros k red green blue Hk.
  pose proof (lookup_lt_Some _ _ _ Hk) as Hlt. unfold pixel in *.
  destruct (Hrows k ltac:(lia))
    as (r' & g' & b' & L & a & b & Hrgb & Hlab & Hrow).
  exists L, a, b. split; [done|].
  rewrite lookup_app_r by lia.
  replace (length (colors (db σ)) + k - length (colors (db σ)))%nat with k
    by lia.
  rewrite Hrow. rewrite Hk in Hrgb. by injection Hrgb as <- <- <-.
Qed.

(** X7. [insert] of a filename that is not registered, with fewer Lab
    triples than colours, ends in the IndexError of [lab[i]], which it does
    not catch; nothing is printed, and the Images row and one Colors row
    for each Lab triple have been written by then. *)
Theorem insert_short_lab (σ : World) (filename : string) (w h : Z)
    (rgb : list pixel) (lab : list (Q * Q * Q)) :
  ¬ registered (db σ) filename → (length lab < length rgb)%nat →
  ∃ σ',
    insert filename w h rgb lab σ = (inl IndexError, σ') ∧
    heap σ' = heap σ ∧ stdout σ' = stdout σ ∧
    images (db σ')
    = images (db σ) ++
      [Images.mk (next_rowid (Images.image_id <$> images (db σ))) 0 w h
                 filename] ∧
    take (length (colors (db σ))) (colors (db σ')) = colors (db σ) ∧
    length (colors (db σ')) = (length (colors (db σ)) + length lab)%nat.
Proof.
  intros Hnew Hlen.
  destruct (insert_new_run σ filename w h rgb lab Hnew)
    as (rows & Hrun & Hrowslen & _).
  rewrite decide_False in Hrun by lia. rewrite Nat.min_r in Hrowslen by lia.
  eexists. split; [exact Hrun|]. simpl.
  split; [done|]. split; [done|]. split; [done|].
  split; [by rewrite take_app_length|].
  by rewrite length_app, Hrowslen.
Qed.

(** The ids [insert] gives are new ones. *)
Lemma insert_primary_keys (σ : World) (filename : string) (w h : Z)
    (rgb : list pixel) (lab : list (Q * Q * Q)) :
  primary_keys (db σ) →
  primary_keys (db (insert filename w h rgb lab σ).2).
Proof.
  intros [Hids Hcids].
  destruct (decide (filename ∈ Images.filename <$> images (db σ)))
    as [Hreg|Hnew].
  { by rewrite insert_duplicate. }
  destruct (insert_new_run σ filename w h rgb lab Hnew)
    as (rows & -> & _ & Hrows).
  unfold primary_keys. simpl. rewrite !fmap_app. simpl. split.
  - apply NoDup_app. split; [done|]. split; [|apply NoDup_singleton].
    intros x Hx%next_rowid_gt [->|[]%elem_of_nil]%elem_of_cons. lia.
  - assert (Hnth : ∀ k x, (Colors.color_id <$> rows) !! k = Some x →
              x = next_rowid (Colors.color_id <$> colors (db σ)) + Z.of_nat k).
    { intros k x Hk. rewrite list_lookup_fmap, fmap_Some in Hk.
      destruct Hk as (c & Hc & ->).
      destruct (Hrows k (lookup_lt_Some _ _ _ Hc))
        as (? & ? & ? & ? & ? & ? & _ & _ & Hrow).
      rewrite Hc in Hrow. by injection Hrow as ->. }
    apply NoDup_app. split; [done|]. split.
    + intros x Hx%next_rowid_gt (k & Hk)%list_elem_of_lookup.
      apply Hnth in Hk. lia.
    + apply NoDup_alt. intros i j x Hi Hj.
      apply Hnth in Hi, Hj. lia.
Qed.

(** X8. [insert] keeps the constraints of the tables, whatever its
    arguments and however it ends: in a pool with distinct image ids,
    distinct color ids and distinct filenames, the pool it leaves has them
    too, and holds the filename. *)
Theorem insert_keeps_constraints (σ : World) (filename : string) (w h : Z)
    (rgb : list pixel) (lab : list (Q * Q * Q)) :
  primary_keys (db σ) → unique_filenames (db σ) →
  primary_keys (db (insert filename w h rgb lab σ).2) ∧
  unique_filenames (db (insert filename w h rgb lab σ).2) ∧
  registered (db (insert filename w h rgb lab σ).2) filename.
Proof.
  intros Hkeys Huniq.
  split; [by apply insert_primary_keys|].
  by apply insert_registers.
Qed.

(** X9. What [insert] registers, the query of [find_match] would read:
    after [insert] of a filename that was not registered, each colour that
    has its Lab triple gives a row of the join with that filename, usage
    count 0, rank k + 1, the Lab triple and the ab_distance the query
    computes for it; for a cap of at least 0 the row passes the usage
    filter. *)
Theorem insert_then_eligible (σ : World) (filename : string) (w h : Z)
    (rgb : list pixel) (lab : list (Q * Q * Q)) (k : nat)
    (red green blue : Z) (L a b : Q) :
  ¬ registered (db σ) filename →
  rgb !! k = Some (red, green, blue) → lab !! k = Some (L, a, b) →
  let σ' := (insert filename w h rgb lab σ).2 in
  ∀ ta tb max_usages, 0 ≤ max_usages →
    ∃ m, m ∈ eligible (db σ') ta tb max_usages ∧
         Match.filename m = filename ∧ Match.usages m = 0 ∧
         Match.rank m = 1 + Z.of_nat k ∧
         Match.L m = L ∧ Match.a m = a ∧ Match.b m = b ∧
         Match.ab_distance m = ab_score ta tb a b.
Proof.
  intros Hnew Hrgb Hlab σ'.
  destruct (insert_new_run σ filename w h rgb lab Hnew)
    as (rows & Hrun & Hrowslen & Hrows).
  pose proof (lookup_lt_Some _ _ _ Hrgb) as Hk1.
  pose proof (lookup_lt_Some _ _ _ Hlab) as Hk2. unfold pixel in *.
  destruct (Hrows k ltac:(lia))
    as (r' & g' & b' & L' & a' & b'' & Hrgb' & Hlab' & Hrow).
  rewrite Hrgb in Hrgb'. injection Hrgb' as <- <- <-.
  rewrite Hlab in Hlab'. injection Hlab' as <- <- <-.
  assert (Hdb : db σ'
                = mkDB (images (db σ) ++
                        [Images.mk
                           (next_rowid (Images.image_id <$> images (db σ)))
                           0 w h filename])
                       (colors (db σ) ++ rows))
    by (unfold σ'; by rewrite Hrun).
  intros ta tb max_usages Hmax.
  exists (join_row ta tb
            (Colors.mk
               (next_rowid (Colors.color_id <$> colors (db σ)) + Z.of_nat k)
               (next_rowid (Images.image_id <$> images (db σ)))
               (1 + Z.of_nat k) L a b red green blue)
            (Images.mk (next_rowid (Images.image_id <$> images (db σ)))
                       0 w h filename)).
  split; [|done].
  apply eligible_elem. split; [simpl; lia|].
  apply joined_elem. eexists _, _. rewrite Hdb. simpl.
  split; [apply elem_of_app; right; by eapply list_elem_of_lookup_2|].
  split; [apply elem_of_app; right; by left|]. done.
Qed.

(** ** What find_match and reset_usage keep *)


Lemma same_image_refl (r : Images.row) : same_image r r.
Proof. done. Qed.

Lemma same_rows_refl (d : DB) : same_rows d d.
Proof.
  split; [done|]. apply Forall_Forall2_diag, Forall_forall. done.
Qed.

Lemma same_rows_trans (d1 d2 d3 : DB) :
  same_rows d1 d2 → same_rows d2 d3 → same_rows d1 d3.
Proof.
  intros [Hc1 Hi1] [Hc2 Hi2]. split; [congruence|].
  eapply Forall2_trans; [|exact Hi1|exact Hi2].
  intros r1 r2 r3 (? & ? & ? & ?) (? & ? & ? & ?).
  unfold same_image. repeat split; congruence.
Qed.

Lemma same_rows_columns (d d' : DB) :
  same_rows d d' →
  Images.image_id <$> images d' = Images.image_id <$> images d ∧
  Images.filename <$> images d' = Images.filename <$> images d ∧
  length (images d') = length (images d).
Proof.
  intros [_ Hi]. destruct d as [l c], d' as [l' c']. simpl in *.
  induction Hi as [|r r' l l' (Hid & _ & _ & Hf) _ IH]; [done|].
  destruct IH as (IH1 & IH2 & IH3). csimpl.
  by rewrite Hid, Hf, IH1, IH2, IH3.
Qed.

Lemma same_rows_constraints (d d' : DB) :
  same_rows d d' →
  (primary_keys d → primary_keys d') ∧
  (unique_filenames d → unique_filenames d').
Proof.
  intros Hsame. pose proof (same_rows_columns d d' Hsame) as (Hid & Hf & _).
  destruct Hsame as [Hc _].
  unfold primary_keys, unique_filenames. rewrite Hid, Hf, Hc. tauto.
Qed.

Lemma same_rows_used (d : DB) (image_id : Z) : same_rows d (used d image_id).
Proof.
  split; [done|]. unfold used. simpl. apply Forall2_fmap_r, Forall_Forall2_diag.
  apply Forall_forall. intros r _. simpl.
  by destruct (decide (Images.image_id r = image_id)).
Qed.

Lemma usages_grow_refl (d : DB) : usages_grow d d.
Proof. apply Forall_Forall2_diag, Forall_forall. intros r _. lia. Qed.

Lemma usages_grow_used (d : DB) (image_id : Z) :
  usages_grow d (used d image_id).
Proof.
  unfold usages_grow, used. simpl. apply Forall2_fmap_r, Forall_Forall2_diag.
  apply Forall_forall. intros r _. simpl.
  destruct (decide (Images.image_id r = image_id)); simpl; lia.
Qed.

(** X10. However a call of [find_match] ends, the pool it leaves has the
    rows it had: the Colors table is the same, every Images row keeps its
    image_id, width, height and filename, no usage count is lower than
    before, the constraints of the tables still hold, nothing has been
    printed and no image object but the tile has changed. *)
Theorem find_match_keeps_rows (σ : World) (tile : loc) (max_usages : Z) :
  let σ' := (find_match tile max_usages σ).2 in
  same_rows (db σ) (db σ') ∧
  usages_grow (db σ) (db σ') ∧
  (primary_keys (db σ) → primary_keys (db σ')) ∧
  (unique_filenames (db σ) → unique_filenames (db σ')) ∧
  stdout σ' = stdout σ ∧
  ∀ l, l ≠ tile → heap σ' !! l = heap σ !! l.
Proof.
  intros σ'.
  assert (Hcases : (db σ' = db σ ∨ ∃ id, db σ' = used (db σ) id) ∧
                   stdout σ' = stdout σ ∧
                   ∀ l, l ≠ tile → heap σ' !! l = heap σ !! l).
  { unfold σ'. rewrite find_match_raises. simpl. eauto. }
  destruct Hcases as (Hdb & Hout & Hheap).
  assert (Hsame : same_rows (db σ) (db σ') ∧ usages_grow (db σ) (db σ')).
  { destruct Hdb as [->|[id ->]].
    - split; [apply same_rows_refl|apply usages_grow_refl].
    - split; [apply same_rows_used|apply usages_grow_used]. }
  destruct Hsame as [Hsame Hgrow].
  destruct (same_rows_constraints _ _ Hsame) as [Hpk Huniq]. done.
Qed.


(** ** Loops *)

Lemma mapM_keeps {A B : Type} (f : A → M B) (P : World → Prop) :
  (∀ x σ, P σ → P (f x σ).2) →
  ∀ l σ, P σ → P (mapM f l σ).2.
Proof.
  intros Hstep l. induction l as [|x l IH]; intros σ HP; csimpl; [done|].
  unfold bind. pose proof (Hstep x σ HP) as H1.
  destruct (f x σ) as [[e|y] σ1]; [done|]. simpl in H1.
  pose proof (IH σ1 H1) as H2.
  destruct (mapM f l σ1) as [[e|ys'] σ2]; done.
Qed.

(** ** photomosaic *)

(** A run of [photomosaic] on a target that opens: the pool it leaves is
    the one [reset_usage] committed, whatever the loops did. *)
Lemma photomosaic_run (σ : World) (target_filename : string)
    (tile_size : Z * Z) (target_img : Image) (tiles : list (list Image)) :
  disk target_filename = Some target_img →
  partition_target target_img tile_size = inr tiles →
  photomosaic target_filename tile_size σ
  = let σ0 := (reset_usage σ).2 in
    match mapM (mapM (replace_tile tile_size)) tiles σ0 with
    | (inl e, σ1) => (inl e, mkWorld (heap σ1) (db σ0) (stdout σ1))
    | (inr tiles', σ1) =>
        match assemble_mosaic tiles' tile_size with
        | inl e => (inl e, mkWorld (heap σ1) (db σ0) (stdout σ1))
        | inr mosaic =>
            (inr (Mosaic mosaic), mkWorld (heap σ1) (db σ0) (stdout σ1))
        end
    end.
Proof.
  intros Hdisk Hpart. unfold photomosaic. rewrite Hdisk.
  unfold bind at 1, lift. rewrite Hpart.
  unfold bind at 1, reset_usage, UPDATE_reset. unfold bind at 1, get_db.
  unfold put_db at 1. unfold bind at 1. unfold bind at 1, try_finally.
  simpl.
  destruct (mapM (mapM (replace_tile tile_size)) tiles _) as [[e|tiles'] σ1];
    [done|].
  unfold db_close, put_db, bind, lift, ret. simpl.
  by destruct (assemble_mosaic tiles' tile_size).
Qed.

Lemma reset_usage_same_rows (σ : World) :
  same_rows (db σ) (db (reset_usage σ).2).
Proof.
  split; [done|]. simpl.
  apply Forall2_fmap_r, Forall_Forall2_diag, Forall_forall. done.
Qed.


(** X15. However [photomosaic] ends, the pool it leaves has the rows it
    had, but for the usage counts, and keeps the constraints of the
    tables; when the target cannot be opened it returns 1 and has only
    printed that, with the usage counts not reset. *)
Theorem photomosaic_keeps_rows (σ : World) (target_filename : string)
    (tile_size : Z * Z) :
  let σ' := (photomosaic target_filename tile_size σ).2 in
  same_rows (db σ) (db σ') ∧
  (primary_keys (db σ) → primary_keys (db σ')) ∧
  (unique_filenames (db σ) → unique_filenames (db σ')) ∧
  (disk target_filename = None →
   photomosaic target_filename tile_size σ
   = (inr (Status 1),
      mkWorld (heap σ) (db σ)
        (stdout σ ++ ["Cannot open " +:+ target_filename
                      +:+ " as an image."]))).
Proof.
  intros σ'.
  assert (Hsame : same_rows (db σ) (db σ')).
  { unfold σ'.
    destruct (disk target_filename) as [target_img|] eqn:Hdisk.
    - destruct (partition_target target_img tile_size) as [e|tiles] eqn:Hpart.
      + unfold photomosaic. rewrite Hdisk. unfold bind, lift.
        rewrite Hpart. apply same_rows_refl.
      + rewrite (photomosaic_run σ target_filename tile_size target_img
                   tiles Hdisk Hpart). cbv zeta.
        destruct (mapM (mapM (replace_tile tile_size)) tiles _)
          as [[e|tiles'] σ1].
        * apply reset_usage_same_rows.
        * destruct (assemble_mosaic tiles' tile_size);
            apply reset_usage_same_rows.
    - unfold photomosaic. rewrite Hdisk. apply same_rows_refl. }
  destruct (same_rows_constraints _ _ Hsame) as [Hpk Huniq].
  split; [done|]. split; [done|]. split; [done|].
  intros Hdisk. unfold photomosaic. by rewrite Hdisk.
Qed.

(** ** create_image_pool *)

Lemma insert_returns (σ : World) (filename : string) (w h : Z)
    (rgb : list pixel) (lab : list (Q * Q * Q)) :
  (length rgb ≤ length lab)%nat →
  (insert filename w h rgb lab σ).1 = inr ().
Proof.
  intros Hlen.
  destruct (decide (filename ∈ Images.filename <$> images (db σ)))
    as [Hreg|Hnew].
  - by rewrite insert_duplicate.
  - destruct (insert_new_run σ filename w h rgb lab Hnew) as (rows & -> & _).
    by rewrite decide_True.
Qed.

(** The pool [insert] leaves: the one it found, or that pool with the new
    Images row and some Colors rows after the rows it had. *)
Lemma insert_db (σ : World) (filename : string) (w h : Z)
    (rgb : list pixel) (lab : list (Q * Q * Q)) :
  (registered (db σ) filename ∧
   db (insert filename w h rgb lab σ).2 = db σ) ∨
  (¬ registered (db σ) filename ∧
   ∃ rows,
     db (insert filename w h rgb lab σ).2
     = mkDB (images (db σ) ++
             [Images.mk (next_rowid (Images.image_id <$> images (db σ)))
                        0 w h filename])
            (colors (db σ) ++ rows)).
Proof.
  destruct (decide (filename ∈ Images.filename <$> images (db σ)))
    as [Hreg|Hnew].
  - left. split; [done|]. by rewrite insert_duplicate.
  - right. split; [done|].
    destruct (insert_new_run σ filename w h rgb lab Hnew) as (rows & -> & _).
    by exists rows.
Qed.

Lemma insert_registered (σ : World) (filename : string) (w h : Z)
    (rgb : list pixel) (lab : list (Q * Q * Q)) :
  registered (db (insert filename w h rgb lab σ).2) filename.
Proof.
  destruct (insert_db σ filename w h rgb lab) as [[Hreg ->]|[_ [rows ->]]];
    [done|].
  unfold registered. simpl. rewrite fmap_app. apply elem_of_app.
  right. by left.
Qed.

Lemma pool_file_unfold (filename : string) (σ : World) :
  pool_file filename σ
  = match disk filename with
    | None =>
        (inr (),
         mkWorld (heap σ) (db σ)
           (stdout σ ++ ["Cannot open " +:+ filename
                         +:+ " as an image. Skipping it."]))
    | Some im =>
        if decide (mode im = "RGB") then
          insert filename (size im).1 (size im).2
            (ranked_colors (thumbnail im (100, 100)) 4)
            (rgb2lab <$> ranked_colors (thumbnail im (100, 100)) 4)
            (mkWorld (<[fresh (dom (heap σ)) := thumbnail im (100, 100)]>
                        (<[fresh (dom (heap σ)) := im]> (heap σ)))
                     (db σ) (stdout σ))
        else
          (inr (),
           mkWorld (<[fresh (dom (heap σ)) := im]> (heap σ)) (db σ)
             (stdout σ ++ ["RGB images only. Skipping " +:+ filename
                           +:+ "."]))
    end.
Proof.
  unfold pool_file. destruct (disk filename) as [im|]; [|done].
  unfold bind at 1, alloc. destruct (decide (mode im = "RGB")) as [Hmode|];
    [|done].
  destruct (size im) as [w h] eqn:Hsize. unfold bind at 1.
  set (σ1 := mkWorld _ _ _).
  assert (Hl : heap σ1 !! fresh (dom (heap σ)) = Some im)
    by (simpl; by rewrite lookup_insert_eq).
  by rewrite (salient_colors_ranked σ1 _ im 4 100 Hl Hmode).
Qed.

(** One file of the walk: the call returns, and the pool is the one it
    found unless the file is a readable RGB image that was not registered,
    which gets its Images row with the size the file has. *)
Lemma pool_file_db (filename : string) (σ : World) :
  (pool_file filename σ).1 = inr () ∧
  (db (pool_file filename σ).2 = db σ ∨
   ¬ registered (db σ) filename ∧
   ∃ im rows,
     disk filename = Some im ∧ mode im = "RGB" ∧
     db (pool_file filename σ).2
     = mkDB (images (db σ) ++
             [Images.mk (next_rowid (Images.image_id <$> images (db σ)))
                        0 (size im).1 (size im).2 filename])
            (colors (db σ) ++ rows)).
Proof.
  rewrite pool_file_unfold. destruct (disk filename) as [im|]; [|by auto].
  destruct (decide (mode im = "RGB")) as [Hmode|]; [|by auto].
  set (σ1 := mkWorld _ _ _).
  split; [apply insert_returns; by rewrite length_fmap|].
  match goal with
  | |- context [insert ?f ?w ?h ?rgb ?lab σ1] =>
      destruct (insert_db σ1 f w h rgb lab) as [[_ ->]|[Hnew [rows ->]]]
  end; [by left|].
  right. split; [done|]. by exists im, rows.
Qed.

Lemma pool_file_constraints (filename : string) (σ : World) :
  primary_keys (db σ) ∧ unique_filenames (db σ) →
  primary_keys (db (pool_file filename σ).2) ∧
  unique_filenames (db (pool_file filename σ).2).
Proof.
  intros [Hkeys Huniq]. rewrite pool_file_unfold.
  destruct (disk filename) as [im|]; [|done].
  destruct (decide (mode im = "RGB")); [|done].
  split; [by apply insert_primary_keys|by apply insert_registers].
Qed.

Lemma mapM_returns {A B : Type} (f : A → M B) :
  (∀ x σ, ∃ y, (f x σ).1 = inr y) →
  ∀ l σ, ∃ ys, (mapM f l σ).1 = inr ys.
Proof.
  intros Hf l. induction l as [|x l IH]; intros σ; csimpl; [by eexists|].
  unfold bind. destruct (Hf x σ) as [y Hy].
  destruct (f x σ) as [[e|y'] σ1]; [done|].
  destruct (IH σ1) as [ys Hys].
  destruct (mapM f l σ1) as [[e|ys'] σ2]; [done|]. by eexists.
Qed.

Lemma mapM_cons_state {A B : Type} (f : A → M B) (x : A) (l : list A)
    (σ : World) (y : B) :
  (f x σ).1 = inr y →
  (∀ x σ, ∃ y, (f x σ).1 = inr y) →
  (mapM f (x :: l) σ).2 = (mapM f l (f x σ).2).2.
Proof.
  intros Hx Hf. csimpl. unfold bind.
  destruct (f x σ) as [[e|y'] σ1]; [done|]. simpl.
  destruct (mapM_returns f Hf l σ1) as [ys Hys].
  by destruct (mapM f l σ1) as [[e|ys'] σ2].
Qed.

Lemma pool_file_returns (filename : string) (σ : World) :
  ∃ y, (pool_file filename σ).1 = inr y.
Proof. exists (). apply pool_file_db. Qed.

Lemma create_image_pool_unfold (walker : list string) (σ : World) :
  create_image_pool walker σ = (inr (), (mapM pool_file walker σ).2).
Proof.
  unfold create_image_pool, create_tables, bind, ret.
  destruct (mapM_returns pool_file pool_file_returns walker σ) as [ys Hys].
  by destruct (mapM pool_file walker σ) as [[e|ys'] σ'].
Qed.

(** X16. [create_image_pool] returns normally for every walk over files,
    whatever the files are; the rows the pool had are still there, as they
    were and in their place, before the rows it has added; and the
    constraints of the tables are kept. *)
Theorem create_image_pool_returns (walker : list string) (σ : World) :
  let σ' := (create_image_pool walker σ).2 in
  (create_image_pool walker σ).1 = inr () ∧
  images (db σ) `prefix_of` images (db σ') ∧
  colors (db σ) `prefix_of` colors (db σ') ∧
  (primary_keys (db σ) → unique_filenames (db σ) →
   primary_keys (db σ') ∧ unique_filenames (db σ')).
Proof.
  intros σ'. unfold σ'. rewrite create_image_pool_unfold. simpl.
  split; [done|].
  assert (Hprefix : images (db σ) `prefix_of`
                      images (db (mapM pool_file walker σ).2) ∧
                    colors (db σ) `prefix_of`
                      colors (db (mapM pool_file walker σ).2)).
  { apply (mapM_keeps pool_file
             (fun τ => images (db σ) `prefix_of` images (db τ) ∧
                       colors (db σ) `prefix_of` colors (db τ))); [|done].
    intros f τ [Hi Hc].
    destruct (pool_file_db f τ) as [_ [->|(_ & im & rows & _ & _ & ->)]];
      [done|].
    simpl. split; (etrans; [eassumption|by apply prefix_app_r]). }
  destruct Hprefix as [Hi Hc]. split; [done|]. split; [done|].
  intros Hkeys Huniq.
  apply (mapM_keeps pool_file
           (fun τ => primary_keys (db τ) ∧ unique_filenames (db τ)));
    [|done].
  intros f τ. apply pool_file_constraints.
Qed.

Lemma pool_file_registered (g f : string) (σ : World) :
  registered (db (pool_file g σ).2) f →
  registered (db σ) f ∨
  f = g ∧ ∃ im, disk g = Some im ∧ mode im = "RGB".
Proof.
  destruct (pool_file_db g σ) as [_ [->|(_ & im & rows & Hd & Hm & ->)]];
    [by left|].
  unfold registered. simpl. rewrite fmap_app. simpl.
  intros [Hf|[->|[]%elem_of_nil]%elem_of_cons]%elem_of_app; [by left|].
  right. eauto.
Qed.

Lemma pool_file_keeps_registered (g f : string) (σ : World) :
  registered (db σ) f → registered (db (pool_file g σ).2) f.
Proof.
  destruct (pool_file_db g σ) as [_ [->|(_ & im & rows & _ & _ & ->)]];
    [done|].
  unfold registered. simpl. rewrite fmap_app. intros Hf.
  apply elem_of_app. by left.
Qed.

(** X17. After [create_image_pool], every file of the walk that opens as
    an RGB image is registered; and when it was not registered before, its
    Images row has usage count 0 and the width and height the file has,
    not those of the thumbnail [salient_colors] leaves of it. *)
Theorem create_image_pool_registers (walker : list string) (σ : World)
    (f : string) (im : Image) :
  f ∈ walker → disk f = Some im → mode im = "RGB" →
  let σ' := (create_image_pool walker σ).2 in
  registered (db σ') f ∧
  (¬ registered (db σ) f →
   ∃ r, r ∈ images (db σ') ∧ Images.filename r = f ∧
        Images.usages r = 0 ∧
        Images.w r = (size im).1 ∧ Images.h r = (size im).2).
Proof.
  intros Hf Hdisk Hmode σ'. unfold σ'. rewrite create_image_pool_unfold.
  simpl. clear σ'. revert σ.
  assert (Hkeep : ∀ l τ, registered (db τ) f →
            registered (db (mapM pool_file l τ).2) f).
  { intros l τ. apply (mapM_keeps pool_file (fun τ => registered (db τ) f)).
    intros g τ0. apply pool_file_keeps_registered. }
  assert (Hrow : ∀ l τ r, r ∈ images (db τ) →
            r ∈ images (db (mapM pool_file l τ).2)).
  { intros l τ r.
    apply (mapM_keeps pool_file (fun τ => r ∈ images (db τ))).
    intros g τ0 Hr.
    destruct (pool_file_db g τ0) as [_ [->|(_ & ? & ? & _ & _ & ->)]];
      [done|].
    simpl. apply elem_of_app. by left. }
  induction walker as [|g walker IH]; intros σ; [by apply elem_of_nil in Hf|].
  destruct (pool_file_db g σ) as [Hret Hdb].
  rewrite (mapM_cons_state pool_file g walker σ () Hret pool_file_returns).
  destruct (decide (f = g)) as [<-|Hne].
  - destruct Hdb as [Hdb|(Hnew & im' & rows & Hd' & _ & Hdb)].
    + assert (Hreg : registered (db σ) f).
      { rewrite <- Hdb. rewrite pool_file_unfold, Hdisk.
        rewrite decide_True by done. apply insert_registered. }
      split; [apply Hkeep; by rewrite Hdb|]. done.
    + rewrite Hdisk in Hd'. injection Hd' as <-.
      split.
      * apply Hkeep. rewrite Hdb. unfold registered. simpl.
        rewrite fmap_app. apply elem_of_app. right. by left.
      * intros _.
        exists (Images.mk (next_rowid (Images.image_id <$> images (db σ)))
                          0 (size im).1 (size im).2 f).
        split; [|done].
        apply Hrow. rewrite Hdb. simpl. apply elem_of_app. right. by left.
  - apply elem_of_cons in Hf as [?|Hf]; [done|].
    destruct (IH Hf (pool_file g σ).2) as [Hreg Hnewrow].
    split; [done|]. intros Hnew. apply Hnewrow.
    intros [?|[? _]]%pool_file_registered; done.
Qed.

(** X18. [create_image_pool] registers nothing but readable RGB files of
    the walk: a filename that is registered after it was registered
    before, or is a file of the walk that opens as an RGB image. *)
Theorem create_image_pool_only_rgb (walker : list string) (σ : World)
    (f : string) :
  registered (db (create_image_pool walker σ).2) f →
  registered (db σ) f ∨
  f ∈ walker ∧ ∃ im, disk f = Some im ∧ mode im = "RGB".
Proof.
  rewrite create_image_pool_unfold. simpl. revert σ.
  induction walker as [|g walker IH]; intros σ; [by left|].
  destruct (pool_file_db g σ) as [Hret _].
  rewrite (mapM_cons_state pool_file g walker σ () Hret pool_file_returns).
  intros [Hreg|[Hf Him]]%IH.
  - apply pool_file_registered in Hreg as [Hreg|[-> Him]]; [by left|].
    right. split; [by left|done].
  - right. split; [by right|done].
Qed.

Lemma mapM_pool_file_registers (walker : list string) (σ : World)
    (f : string) (im : Image) :
  f ∈ walker → disk f = Some im → mode im = "RGB" →
  registered (db (mapM pool_file walker σ).2) f.
Proof.
  intros Hf Hdisk Hmode. revert σ.
  induction walker as [|g walker IH]; intros σ; [by apply elem_of_nil in Hf|].
  destruct (pool_file_db g σ) as [Hret _].
  rewrite (mapM_cons_state pool_file g walker σ () Hret pool_file_returns).
  destruct (decide (f = g)) as [<-|Hne].
  - apply (mapM_keeps pool_file (fun τ => registered (db τ) f)).
    + intros g τ. apply pool_file_keeps_registered.
    + rewrite pool_file_unfold, Hdisk. rewrite decide_True by done.
      apply insert_registered.
  - apply elem_of_cons in Hf as [?|Hf]; [done|]. by apply IH.
Qed.

Lemma mapM_pool_file_registered (walker : list string) (σ : World) :
  (∀ f im, f ∈ walker → disk f = Some im → mode im = "RGB" →
           registered (db σ) f) →
  db (mapM pool_file walker σ).2 = db σ.
Proof.
  revert σ. induction walker as [|g walker IH]; intros σ Hreg; [done|].
  destruct (pool_file_db g σ) as [Hret Hdb].
  rewrite (mapM_cons_state pool_file g walker σ () Hret pool_file_returns).
  assert (Hsame : db (pool_file g σ).2 = db σ).
  { destruct Hdb as [Hdb|(Hnew & im & rows & Hd & Hm & _)]; [done|].
    exfalso. apply Hnew. apply (Hreg g im); [by left|done|done]. }
  rewrite IH; [done|]. intros f im Hf Hd Hm. rewrite Hsame.
  apply (Hreg f im); [by right|done|done].
Qed.

(** X19. Building the pool twice over the same walk adds nothing the
    second time: the pool after the second [create_image_pool] is the pool
    after the first. *)
Theorem create_image_pool_twice (walker : list string) (σ : World) :
  db (create_image_pool walker (create_image_pool walker σ).2).2
  = db (create_image_pool walker σ).2.
Proof.
  rewrite !create_image_pool_unfold. simpl.
  apply mapM_pool_file_registered. intros f im Hf Hdisk Hmode.
  by apply (mapM_pool_file_registers walker σ f im).
Qed.

(** X20. What [salient_colors] returns for an RGB image are the centroids
    k-means gave for the pixels of its thumbnail, each of them once: they
    are taken in an order that goes through all their indices, and along
    that order the counts of the histogram do not increase. *)
Theorem salient_colors_returns_centroids (σ : World) (img : loc) (im : Image)
    (clusters : nat) (s : Z) :
  heap σ !! img = Some im → mode im = "RGB" →
  let imgarr := fromimage (thumbnail im (s, s)) in
  let centroids := kmeans imgarr clusters in
  let counts := histogram (vq imgarr centroids) (length centroids) in
  ∃ colors σ' perm,
    salient_colors img clusters s σ = (inr colors, σ') ∧
    colors ≡ₚ centroids ∧
    length colors = length centroids ∧
    colors = take_rows centroids perm ∧
    perm ≡ₚ seq 0 (length centroids) ∧
    StronglySorted (fun i j => at_index counts j ≤ at_index counts i) perm.
Proof.
  intros Him Hmode imgarr centroids counts.
  destruct (ranked_colors_ranking (thumbnail im (s, s)) clusters)
    as (Heq & Hperm & Hcolors & Hlen & Hsorted).
  exists (ranked_colors (thumbnail im (s, s)) clusters),
         (shrunk σ img im s), (ranking (thumbnail im (s, s)) clusters).
  split; [by apply salient_colors_ranked|]. done.
Qed.

(** ** The order of salient_colors and the abundance of the colours *)

Lemma foldr_min_spec (v0 : Z) (vs : list Z) :
  foldr Z.min v0 vs ∈ v0 :: vs ∧ ∀ v, v ∈ v0 :: vs → foldr Z.min v0 vs ≤ v.
Proof.
  induction vs as [|x vs [IHin IHle]]; simpl.
  - split; [by left|]. intros v [->|[]%elem_of_nil]%elem_of_cons. lia.
  - split.
    + destruct (Z.min_spec x (foldr Z.min v0 vs)) as [[_ ->]|[_ ->]].
      * right. by left.
      * apply elem_of_cons in IHin as [->|Hin]; [by left|]. right. by right.
    + intros v [->|[->|Hv]%elem_of_cons]%elem_of_cons.
      * specialize (IHle v0 ltac:(by left)). lia.
      * lia.
      * specialize (IHle v ltac:(by right)). lia.
Qed.

Lemma foldr_max_spec (v0 : Z) (vs : list Z) :
  foldr Z.max v0 vs ∈ v0 :: vs ∧ ∀ v, v ∈ v0 :: vs → v ≤ foldr Z.max v0 vs.
Proof.
  induction vs as [|x vs [IHin IHle]]; simpl.
  - split; [by left|]. intros v [->|[]%elem_of_nil]%elem_of_cons. lia.
  - split.
    + destruct (Z.max_spec x (foldr Z.max v0 vs)) as [[_ ->]|[_ ->]].
      * apply elem_of_cons in IHin as [->|Hin]; [by left|]. right. by right.
      * right. by left.
    + intros v [->|[->|Hv]%elem_of_cons]%elem_of_cons.
      * specialize (IHle v0 ltac:(by left)). lia.
      * lia.
      * specialize (IHle v ltac:(by right)). lia.
Qed.

(** With [n] bins over the codes 0 to n - 1, each code is its own bin. *)
Lemma bin_of_code (n : nat) (v : Z) :
  0 ≤ v < Z.of_nat n → bin_of 0 (Z.of_nat n - 1) n v = v.
Proof.
  intros Hv. unfold bin_of.
  destruct (decide (0 = Z.of_nat n - 1)) as [Hone|Hmore].
  - assert (Z.of_nat n = 1) as -> by lia. change (1 `div` 2) with 0. lia.
  - destruct (decide (v = Z.of_nat n - 1)) as [->|Hlast]; [done|].
    rewrite Z.sub_0_r. symmetry.
    apply (Z.div_unique _ _ _ v); [lia|]. lia.
Qed.

Lemma filter_ext_elem {A : Type} (P Q : A → Prop) `{∀ x, Decision (P x)}
    `{∀ x, Decision (Q x)} (l : list A) :
  (∀ x, x ∈ l → P x ↔ Q x) → filter P l = filter Q l.
Proof.
  induction l as [|x l IH]; intros Hall; [done|].
  rewrite !filter_cons.
  rewrite IH by (intros y Hy; apply Hall; by right).
  pose proof (Hall x ltac:(by left)) as Hx.
  destruct (decide (P x)), (decide (Q x)); tauto.
Qed.

(** When the codes are indices of the [n] centroids and both the first
    and the last centroid have an observation, the count of the histogram
    for a centroid is the number of its observations. *)
Lemma histogram_members (vecs : list Z) (n : nat) (i : nat) :
  (∀ v, v ∈ vecs → 0 ≤ v < Z.of_nat n) →
  0 ∈ vecs → Z.of_nat n - 1 ∈ vecs → (i < n)%nat →
  at_index (histogram vecs n) i = members vecs i.
Proof.
  intros Hrange Hfirst Hlast Hi. unfold histogram, at_index, members.
  destruct vecs as [|v0 vs]; [by apply elem_of_nil in Hfirst|].
  destruct (foldr_min_spec v0 vs) as [Hmin_in Hmin_le].
  destruct (foldr_max_spec v0 vs) as [Hmax_in Hmax_le].
  assert (Hmin : foldr Z.min v0 vs = 0).
  { specialize (Hmin_le 0 Hfirst). specialize (Hrange _ Hmin_in). lia. }
  assert (Hmax : foldr Z.max v0 vs = Z.of_nat n - 1).
  { specialize (Hmax_le _ Hlast). specialize (Hrange _ Hmax_in). lia. }
  rewrite Hmin, Hmax. rewrite list_lookup_fmap.
  rewrite (proj2 (range_lookup (Z.of_nat n) i (Z.of_nat i))) by (split; [done|lia]).
  simpl. f_equal. f_equal. apply filter_ext_elem.
  intros v Hv. by rewrite (bin_of_code n v (Hrange v Hv)).
Qed.

Lemma StronglySorted_elem_impl {A : Type} (R R' : A → A → Prop) (l : list A) :
  (∀ x y, x ∈ l → y ∈ l → R x y → R' x y) →
  StronglySorted R l → StronglySorted R' l.
Proof.
  intros Himpl Hs. induction Hs as [|x l Hl IH Hx]; constructor.
  - apply IH. intros y z Hy Hz. apply Himpl; by right.
  - apply Forall_forall. intros y Hy. rewrite Forall_forall in Hx.
    apply Himpl; [by left|by right|by apply Hx].
Qed.

(** What [salient_colors] returns is in the order of abundance when the
    quantisation assigns an observation to the first and to the last
    centroid of k-means: the centroids come back each once, along an order
    of their indices along which the number of their observations does not
    increase. *)
Lemma salient_colors_by_members (σ : World) (img : loc) (im : Image)
    (clusters : nat) (s : Z) :
  heap σ !! img = Some im → mode im = "RGB" →
  let imgarr := fromimage (thumbnail im (s, s)) in
  let centroids := kmeans imgarr clusters in
  let vecs := vq imgarr centroids in
  (∀ v, v ∈ vecs → 0 ≤ v < Z.of_nat (length centroids)) →
  0 ∈ vecs → Z.of_nat (length centroids) - 1 ∈ vecs →
  ∃ colors σ' perm,
    salient_colors img clusters s σ = (inr colors, σ') ∧
    colors ≡ₚ centroids ∧
    colors = take_rows centroids perm ∧
    perm ≡ₚ seq 0 (length centroids) ∧
    StronglySorted (fun i j => members vecs j ≤ members vecs i) perm.
Proof.
  intros Him Hmode. cbv zeta. intros Hrange Hfirst Hlast.
  destruct (ranked_colors_ranking (thumbnail im (s, s)) clusters)
    as (Heq & Hperm & Hcolors & Hlen & Hsorted).
  cbv zeta in Hperm, Hcolors, Hsorted.
  exists (ranked_colors (thumbnail im (s, s)) clusters),
         (shrunk σ img im s), (ranking (thumbnail im (s, s)) clusters).
  split; [by apply salient_colors_ranked|].
  split; [done|]. split; [done|]. split; [done|].
  eapply StronglySorted_elem_impl; [|exact Hsorted].
  intros i j Hi Hj. simpl.
  rewrite Hperm in Hi, Hj. apply elem_of_seq in Hi, Hj. unfold pixel in *.
  rewrite !(histogram_members _ _ _ Hrange Hfirst Hlast) by lia.
  done.
Qed.

End Photomosaic.

(** * Runs of the model on concrete inputs *)


(** C2. With four rows of [pool_two] passing the usage filter, the call
    of [find_match] on a tile returns no row: it ends in the NameError of
    line 185 and leaves the state as it was.  No call returns a row. *)
Theorem find_match_returns_no_row :
  let σ := world_of tile_image pool_two in
  length (eligible toy_fl pool_two (60 # 1) (30 # 1) 5) = 4%nat ∧
  find_match toy_resample toy_kmeans toy_vq toy_fl 0%nat 5 σ
  = (inl (NameError "rgb2lab"), σ) ∧
  ∀ resample kmeans vq fl tile max_usages τ m τ',
    find_match resample kmeans vq fl tile max_usages τ ≠ (inr m, τ').
Proof.
  split; [reflexivity|]. split; [reflexivity|].
  intros resample kmeans vq fl tile max_usages τ m τ'.
  by rewrite find_match_raises.
Qed.

(** C3. The call of [find_match] on [pool_two], where rows pass the usage
    filter, counts no use: the usage counts are 0 and 3 before the call
    and after it.  No call changes the pool. *)
Theorem find_match_counts_no_use :
  let σ := world_of tile_image pool_two in
  let run := find_match toy_resample toy_kmeans toy_vq toy_fl 0%nat 5 σ in
  length (eligible toy_fl pool_two (60 # 1) (30 # 1) 5) = 4%nat ∧
  run.1 = inl (NameError "rgb2lab") ∧
  Images.usages <$> images (db σ) = [0; 3] ∧
  Images.usages <$> images (db run.2) = [0; 3] ∧
  ∀ resample kmeans vq fl tile max_usages τ,
    db (find_match resample kmeans vq fl tile max_usages τ).2 = db τ.
Proof.
  split; [reflexivity|]. split; [reflexivity|]. split; [reflexivity|].
  split; [reflexivity|].
  intros resample kmeans vq fl tile max_usages τ.
  by rewrite find_match_raises.
Qed.

(** C4. [find_match] fails on a pool that is not exhausted: with the row
    of [pool_one 0] passing the usage filter it ends in the NameError of
    line 185, the exception it also ends in on the exhausted [pool_one 6];
    and a run of [photomosaic] on a target of two tiles ends in that
    exception at the first tile, with the usage count as reset. *)
Theorem find_match_fails_with_eligible_rows :
  let find := find_match toy_resample toy_kmeans toy_vq toy_fl 0%nat 5 in
  let run := photomosaic toy_resample toy_kmeans toy_vq (toy_disk 2) toy_fl
               "target.png" (1, 1) (world_start (pool_one 3)) in
  length (eligible toy_fl (pool_one 0) (60 # 1) (30 # 1) 5) = 1%nat ∧
  find (world_of tile_image (pool_one 0))
  = (inl (NameError "rgb2lab"), world_of tile_image (pool_one 0)) ∧
  eligible toy_fl (pool_one 6) (60 # 1) (30 # 1) 5 = [] ∧
  find (world_of tile_image (pool_one 6))
  = (inl (NameError "rgb2lab"), world_of tile_image (pool_one 6)) ∧
  run.1 = inl (NameError "rgb2lab") ∧
  Images.usages <$> images (db run.2) = [0] ∧
  stdout run.2 = [].
Proof.
  split; [reflexivity|]. split; [reflexivity|]. split; [reflexivity|].
  split; [reflexivity|]. split; [vm_compute; reflexivity|].
  split; vm_compute; reflexivity.
Qed.

(** C5. [salient_colors] does not always return the colours in the order
    of their abundance.  For the image of four pixels and the codebook of
    two centroids, every code is 0; the histogram takes its two bins
    around that one value and counts the four pixels in the second; the
    colours come back second centroid first, which has no pixel, then the
    first, which has all four.  When the codes are indices of the
    centroids and a pixel is assigned to the first centroid and to the
    last, the order is the order of abundance. *)
Theorem salient_colors_order_not_by_abundance :
  let σ := world_of four_pixels pool_empty in
  let vecs := nearest_vq (fromimage four_pixels) two_means in
  (salient_colors toy_resample two_means_kmeans nearest_vq 0%nat 4 100 σ).1
  = inr [(0, 1, 2); (0, 2, 3)] ∧
  vecs = [0; 0; 0; 0] ∧
  histogram vecs 2 = [0; 4] ∧
  members vecs <$> [1; 0]%nat = [0; 4] ∧
  ∀ resample kmeans vq (τ : World) img im clusters s,
    heap τ !! img = Some im → mode im = "RGB" →
    let imgarr := fromimage (thumbnail resample im (s, s)) in
    let centroids := kmeans imgarr clusters in
    let codes := vq imgarr centroids in
    (∀ v, v ∈ codes → 0 ≤ v < Z.of_nat (length centroids)) →
    0 ∈ codes → Z.of_nat (length centroids) - 1 ∈ codes →
    ∃ colors τ' perm,
      salient_colors resample kmeans vq img clusters s τ = (inr colors, τ') ∧
      colors ≡ₚ centroids ∧
      colors = take_rows centroids perm ∧
      perm ≡ₚ seq 0 (length centroids) ∧
      StronglySorted (fun i j => members codes j ≤ members codes i) perm.
Proof.
  split; [vm_compute; reflexivity|]. split; [vm_compute; reflexivity|].
  split; [vm_compute; reflexivity|]. split; [vm_compute; reflexivity|].
  intros resample kmeans vq τ img im clusters s.
  apply salient_colors_by_members.
Qed.

(** C10. [salient_colors] makes the image it is given a thumbnail in
    place: the 310 x 200 image at reference 0 is 100 x 64 after the call.
    The tile handed to [find_match] is not: the call ends in the
    NameError of line 185 before [salient_colors] is called, and the tile
    is 310 x 200 after it.  No call of [find_match] changes an image
    object. *)
Theorem find_match_leaves_tile_unshrunk :
  let σ := world_of photo_image pool_empty in
  let run := find_match toy_resample toy_kmeans toy_vq toy_fl 0%nat 5 σ in
  size <$> heap σ !! 0%nat = Some (310, 200) ∧
  size <$> heap (salient_colors toy_resample toy_kmeans toy_vq 0%nat 4 100
                   σ).2 !! 0%nat = Some (100, 64) ∧
  run.1 = inl (NameError "rgb2lab") ∧
  size <$> heap run.2 !! 0%nat = Some (310, 200) ∧
  ∀ resample kmeans vq fl tile max_usages τ,
    heap (find_match resample kmeans vq fl tile max_usages τ).2 = heap τ.
Proof.
  split; [reflexivity|]. split.
  { rewrite (salient_colors_ranked toy_resample toy_kmeans toy_vq
               (world_of photo_image pool_empty) 0%nat photo_image 4 100
               eq_refl eq_refl).
    simpl. rewrite lookup_insert_eq. reflexivity. }
  split; [reflexivity|]. split; [reflexivity|].
  intros resample kmeans vq fl tile max_usages τ.
  by rewrite find_match_raises.
Qed.

Lemma insert_duplicate_is_noop_witness :
  ∃ σ',
    insert "a.jpg" 10 20 [(1, 2, 3)] [(1 # 1, 2 # 1, 3 # 1)%Q]
      (world_of tile_image (pool_one 0)) = (inr (), σ') ∧
    db σ' = pool_one 0 ∧
    stdout σ' = ["Image a.jpg is already in the table. Skipping it."].
Proof.
  destruct (insert_duplicate_is_noop (world_of tile_image (pool_one 0))
              "a.jpg" 10 20 [(1, 2, 3)] [(1 # 1, 2 # 1, 3 # 1)%Q])
    as [Hdup _].
  - apply NoDup_singleton.
  - destruct Hdup as (σ' & Hrun & Hout & Hdb & _).
    + apply list_elem_of_fmap. exists (Images.mk 1 0 640 480 "a.jpg").
      split; [reflexivity|]. left.
    + exists σ'. split; [exact Hrun|]. split; [exact Hdb|exact Hout].
Defined.

Lemma partition_target_grid_witness :
  ∃ tiles,
    partition_target photo_image (100, 100) = inr tiles ∧
    length tiles = 2%nat ∧
    Forall (fun row => length row = 3%nat) tiles.
Proof.
  destruct (partition_target_grid photo_image 100 100)
    as (tiles & Hrun & Hrows & Hcols & _); [lia|lia|].
  exists tiles. split; [exact Hrun|]. split; [exact Hrows|exact Hcols].
Defined.

Lemma assemble_mosaic_canvas_witness :
  ∃ mosaic,
    assemble_mosaic
      (replicate 2 (replicate 3 (plain "RGB" (100, 100) (120, 60, 30))))
      (100, 100) = inr mosaic ∧
    size mosaic = (300, 200).
Proof.
  destruct (assemble_mosaic_canvas
              (replicate 2 (replicate 3 (plain "RGB" (100, 100) (120, 60, 30))))
              100 100 2 3)
    as (mosaic & Hrun & _ & Hsize & _).
  - reflexivity.
  - lia.
  - repeat constructor.
  - exists mosaic. split; [exact Hrun|exact Hsize].
Defined.

(** * Runs for the further properties *)


Lemma partition_then_assemble_witness :
  ∃ tiles mosaic,
    partition_target photo_image (100, 100) = inr tiles ∧
    assemble_mosaic tiles (100, 100) = inr mosaic ∧
    size mosaic = (300, 200) ∧
    pix mosaic 299 199 = pix photo_image 299 199.
Proof.
  destruct (partition_then_assemble photo_image 100 100)
    as (tiles & mosaic & Hpart & Hasm & Hsize & Hpix);
    [lia|lia|simpl; lia|simpl; lia|].
  exists tiles, mosaic. split; [exact Hpart|]. split; [exact Hasm|].
  split; [exact Hsize|]. apply Hpix; split; vm_compute; done.
Defined.

Lemma crop_to_fit_pads_wide_image_witness :
  ∃ y_offset crop_h,
    crop_to_fit toy_resample wide_image (100, 100)
    = inr (resize toy_resample
             (crop wide_image (0, y_offset, 150, y_offset + crop_h))
             (100, 100) ANTIALIAS) ∧
    y_offset < 0 ∧ 100 < crop_h.
Proof.
  destruct (crop_to_fit_pads_wide_image toy_resample wide_image 100 100)
    as (y_offset & crop_h & Hrun & Hneg & Hhigh & _);
    [vm_compute; done..|].
  exists y_offset, crop_h. split; [exact Hrun|]. split; [exact Hneg|exact Hhigh].
Defined.

Lemma not_registered_b : ¬ registered (pool_one 0) "b.jpg".
Proof.
  unfold registered. simpl. intros [H|H]%elem_of_cons.
  - discriminate H.
  - by apply elem_of_nil in H.
Defined.

Lemma insert_new_image_witness :
  ∃ σ',
    insert "b.jpg" 10 20 [(1, 2, 3)] [(4 # 1, 5 # 1, 6 # 1)%Q]
      (world_of tile_image (pool_one 0)) = (inr (), σ') ∧
    images (db σ')
    = [Images.mk 1 0 640 480 "a.jpg"; Images.mk 2 0 10 20 "b.jpg"] ∧
    length (colors (db σ')) = 2%nat.
Proof.
  destruct (insert_new_image (world_of tile_image (pool_one 0)) "b.jpg" 10 20
              [(1, 2, 3)] [(4 # 1, 5 # 1, 6 # 1)%Q])
    as (σ' & Hrun & _ & _ & Himages & _ & _ & Hlen & _).
  - exact not_registered_b.
  - simpl. lia.
  - exists σ'. split; [exact Hrun|]. split; [exact Himages|exact Hlen].
Defined.

Lemma insert_short_lab_witness :
  ∃ σ',
    insert "b.jpg" 10 20 [(1, 2, 3); (7, 8, 9)] [(4 # 1, 5 # 1, 6 # 1)%Q]
      (world_of tile_image (pool_one 0)) = (inl IndexError, σ') ∧
    length (images (db σ')) = 2%nat ∧ length (colors (db σ')) = 2%nat.
Proof.
  destruct (insert_short_lab (world_of tile_image (pool_one 0)) "b.jpg" 10 20
              [(1, 2, 3); (7, 8, 9)] [(4 # 1, 5 # 1, 6 # 1)%Q])
    as (σ' & Hrun & _ & _ & Himages & _ & Hlen).
  - exact not_registered_b.
  - simpl. lia.
  - exists σ'. split; [exact Hrun|]. split; [by rewrite Himages|exact Hlen].
Defined.

Lemma pool_one_constraints (n : Z) :
  primary_keys (pool_one n) ∧ unique_filenames (pool_one n).
Proof.
  unfold primary_keys, unique_filenames. simpl.
  split; [split|]; apply NoDup_singleton.
Defined.

Lemma insert_keeps_constraints_witness :
  primary_keys
    (db (insert "b.jpg" 10 20 [(1, 2, 3)] [(4 # 1, 5 # 1, 6 # 1)%Q]
           (world_of tile_image (pool_one 0))).2) ∧
  registered
    (db (insert "b.jpg" 10 20 [(1, 2, 3)] [(4 # 1, 5 # 1, 6 # 1)%Q]
           (world_of tile_image (pool_one 0))).2) "b.jpg".
Proof.
  destruct (insert_keeps_constraints (world_of tile_image (pool_one 0))
              "b.jpg" 10 20 [(1, 2, 3)] [(4 # 1, 5 # 1, 6 # 1)%Q])
    as (Hkeys & _ & Hreg).
  - apply (pool_one_constraints 0).
  - apply (pool_one_constraints 0).
  - split; [exact Hkeys|exact Hreg].
Defined.

Lemma insert_then_eligible_witness :
  ∃ m,
    m ∈ eligible toy_fl
          (db (insert "b.jpg" 10 20 [(1, 2, 3)] [(4 # 1, 5 # 1, 6 # 1)%Q]
                 (world_of tile_image (pool_one 0))).2)
          (60 # 1) (30 # 1) 5 ∧
    Match.filename m = "b.jpg" ∧ Match.usages m = 0 ∧ Match.rank m = 1.
Proof.
  destruct (insert_then_eligible toy_fl (world_of tile_image (pool_one 0))
              "b.jpg" 10 20 [(1, 2, 3)] [(4 # 1, 5 # 1, 6 # 1)%Q] 0 1 2 3
              (4 # 1) (5 # 1) (6 # 1) not_registered_b eq_refl eq_refl
              (60 # 1) (30 # 1) 5)
    as (m & Hm & Hfile & Husages & Hrank & _).
  - lia.
  - exists m. split; [exact Hm|]. split; [exact Hfile|].
    split; [exact Husages|exact Hrank].
Defined.

Lemma salient_colors_in_place_witness :
  salient_colors toy_resample toy_kmeans toy_vq 0%nat 4 100
    (world_of grey_image pool_empty)
  = (inl AssertionError, world_of grey_image pool_empty) ∧
  ∃ colors σ' im',
    salient_colors toy_resample toy_kmeans toy_vq 0%nat 4 100
      (world_of photo_image pool_empty) = (inr colors, σ') ∧
    heap σ' !! 0%nat = Some im' ∧
    size im' = (100, 64).
Proof.
  split.
  - destruct (salient_colors_in_place toy_resample toy_kmeans toy_vq
                (world_of grey_image pool_empty) 0%nat grey_image 4 100
                eq_refl) as [Hgrey _].
    apply Hgrey. discriminate.
  - destruct (salient_colors_in_place toy_resample toy_kmeans toy_vq
                (world_of photo_image pool_empty) 0%nat photo_image 4 100
                eq_refl) as [_ Hrgb].
    destruct Hrgb as (colors & σ' & im' & Hrun & Hheap & Him' & _).
    + reflexivity.
    + lia.
    + exists colors, σ', im'. split; [exact Hrun|]. split; [exact Hheap|].
      rewrite Him'. reflexivity.
Defined.


Lemma create_image_pool_registers_witness :
  ∃ r,
    r ∈ images (db (create_image_pool toy_resample toy_kmeans toy_vq
                      toy_rgb2lab (toy_disk 310)
                      ["nothing.txt"; "target.png"; "target.png"]
                      (world_start pool_empty)).2) ∧
    Images.filename r = "target.png" ∧
    Images.w r = 310 ∧ Images.h r = 1.
Proof.
  destruct (create_image_pool_registers toy_resample toy_kmeans toy_vq
              toy_rgb2lab (toy_disk 310)
              ["nothing.txt"; "target.png"; "target.png"]
              (world_start pool_empty) "target.png"
              (plain "RGB" (310, 1) (120, 60, 30)))
    as [_ Hrow].
  - right. left.
  - reflexivity.
  - reflexivity.
  - destruct Hrow as (r & Hr & Hf & _ & Hw & Hh).
    + unfold registered. simpl. by intros ?%elem_of_nil.
    + exists r. split; [exact Hr|]. split; [exact Hf|].
      split; [exact Hw|exact Hh].
Defined.

Lemma create_image_pool_only_rgb_witness :
  "target.png" ∈ ["nothing.txt"; "target.png"] ∧
  ∃ im, toy_disk 310 "target.png" = Some im ∧ mode im = "RGB".
Proof.
  destruct (create_image_pool_only_rgb toy_resample toy_kmeans toy_vq
              toy_rgb2lab (toy_disk 310) ["nothing.txt"; "target.png"]
              (world_start pool_empty) "target.png")
    as [Hbefore|Hwalk].
  - unfold registered. vm_compute. left.
  - exfalso. unfold registered in Hbefore. simpl in Hbefore.
    by apply elem_of_nil in Hbefore.
  - exact Hwalk.
Defined.

Lemma salient_colors_returns_centroids_witness :
  ∃ colors σ',
    salient_colors toy_resample toy_kmeans toy_vq 0%nat 4 100
      (world_of photo_image pool_empty) = (inr colors, σ') ∧
    length colors = 4%nat.
Proof.
  destruct (salient_colors_returns_centroids toy_resample toy_kmeans toy_vq
              (world_of photo_image pool_empty) 0%nat photo_image 4 100
              eq_refl eq_refl)
    as (colors & σ' & perm & Hrun & _ & Hlen & _).
  exists colors, σ'. split; [exact Hrun|]. rewrite Hlen. reflexivity.
Defined.
